(** * Download routes of the YouTube downloader backend

    A shallow embedding of [backend/routes/downloader.js]: the progress
    store, the [runYtDlp] process runner with its four event handlers, the
    progress-line regular expression, the three download route handlers and
    the progress query, followed by the properties proved about them. *)

From Stdlib Require Import QArith Ascii String.
From stdpp Require Import gmap strings list pretty.
Close Scope Q_scope.
Local Open Scope string_scope.
Local Open Scope list_scope.

(** ** JavaScript values used by the routes *)

(** JavaScript strings.  Characters are UTF-16 code units; the model keeps
    the code units below 256, one [ascii] each. *)
Definition chars := list ascii.

(** A property of an object literal that may hold [null]. *)
Inductive nullable (A : Type) : Type :=
| Null
| Val (a : A).
Arguments Null {A}.
Arguments Val {A} a.

(** JavaScript numbers.  [Fin q] stands for the double the source holds for
    the exact value [q] (kept in lowest terms): [q] itself when a double
    can hold it, else the nearest double, and Infinity beyond the range.
    Rounding is monotone and keeps 0, so signs and comparisons with values a
    double holds exactly carry over; nothing below relies on more. *)
Inductive number : Type :=
| NaN
| Fin (q : Q).

(** Truthiness of an optional string ([undefined] and [''] are falsy). *)
Definition truthy (s : option string) : bool :=
  match s with
  | Some (String _ _) => true
  | _ => false
  end.

(** [a || b] on an optional string with a string default. *)
Definition or_else (a : option string) (b : string) : string :=
  match a with
  | Some (String c s) => String c s
  | _ => b
  end.

(** Destructuring default: [x = d] applies only to [undefined]. *)
Definition default_to {A} (d : A) (x : option A) : A :=
  match x with
  | Some v => v
  | None => d
  end.

(** ** Regular expressions

    The fragment of ECMAScript regular expressions the routes use, with the
    backtracking semantics of [RegExp.prototype.exec]: quantifiers apply to
    single-character atoms only, which is all the source needs. *)

Definition isDigit (c : ascii) : bool :=
  let n := nat_of_ascii c in (48 <=? n)%nat && (n <=? 57)%nat.

Definition isWord (c : ascii) : bool :=
  let n := nat_of_ascii c in
  isDigit c
  || ((65 <=? n)%nat && (n <=? 90)%nat)
  || ((97 <=? n)%nat && (n <=? 122)%nat)
  || (n =? 95)%nat.

(** [\s]: TAB, LF, VT, FF, CR, SPACE and NBSP (the white space and line
    terminators below 256). *)
Definition isSpace (c : ascii) : bool :=
  let n := nat_of_ascii c in
  ((9 <=? n)%nat && (n <=? 13)%nat) || (n =? 32)%nat || (n =? 160)%nat.

(** [.]: anything but a line terminator. *)
Definition isDot (c : ascii) : bool :=
  let n := nat_of_ascii c in
  negb ((n =? 10)%nat || (n =? 13)%nat).

(** [[\d:]] *)
Definition isDigitOrColon (c : ascii) : bool :=
  isDigit c || (nat_of_ascii c =? 58)%nat.

Inductive regex : Type :=
| Empty
| Char (c : ascii)
| Class (p : ascii -> bool)
| Cat (r1 r2 : regex)
| Alt (r1 r2 : regex)
| Repeat (greedy : bool) (min : nat) (p : ascii -> bool)
| Group (n : nat) (r : regex).

Fixpoint Lit_chars (s : chars) : regex :=
  match s with
  | [] => Empty
  | c :: s' => Cat (Char c) (Lit_chars s')
  end.

(** A literal run of characters. *)
Definition Lit (s : string) : regex := Lit_chars (list_ascii_of_string s).

(** [r?] *)
Definition Opt (r : regex) : regex := Alt r Empty.

(** [p+] and [p*?] over an atom. *)
Definition Plus (p : ascii -> bool) : regex := Repeat true 1 p.
Definition LazyStar (p : ascii -> bool) : regex := Repeat false 0 p.

Fixpoint Cats (rs : list regex) : regex :=
  match rs with
  | [] => Empty
  | r :: rs' => Cat r (Cats rs')
  end.

(** Capture groups: group number to captured text. *)
Abbreviation captures := (gmap nat chars).

Section Matcher.
Context {R : Type}.

(** The continuation receives the rest of the input and the captures. *)
Definition cont : Type := chars -> captures -> option R.

Definition orElse (a : option R) (b : option R) : option R :=
  match a with
  | Some x => Some x
  | None => b
  end.

(** Greedy repetition: take as many as possible, give back on failure. *)
Fixpoint repeat_greedy (p : ascii -> bool) (min : nat) (s : chars)
    (caps : captures) (k : cont) : option R :=
  let stop := match min with O => k s caps | S _ => None end in
  match s with
  | c :: s' =>
      if p c then orElse (repeat_greedy p (pred min) s' caps k) stop
      else stop
  | [] => stop
  end.

(** Lazy repetition: take as few as possible, take more on failure. *)
Fixpoint repeat_lazy (p : ascii -> bool) (min : nat) (s : chars)
    (caps : captures) (k : cont) : option R :=
  let more :=
    match s with
    | c :: s' => if p c then repeat_lazy p (pred min) s' caps k else None
    | [] => None
    end in
  match min with
  | O => orElse (k s caps) more
  | S _ => more
  end.

Fixpoint rmatch (r : regex) (s : chars) (caps : captures) (k : cont)
    : option R :=
  match r with
  | Empty => k s caps
  | Char c =>
      match s with
      | c' :: s' => if Ascii.eqb c c' then k s' caps else None
      | [] => None
      end
  | Class p =>
      match s with
      | c' :: s' => if p c' then k s' caps else None
      | [] => None
      end
  | Cat r1 r2 => rmatch r1 s caps (fun s1 caps1 => rmatch r2 s1 caps1 k)
  | Alt r1 r2 => orElse (rmatch r1 s caps k) (rmatch r2 s caps k)
  | Repeat true min p => repeat_greedy p min s caps k
  | Repeat false min p => repeat_lazy p min s caps k
  | Group n r =>
      rmatch r s caps
        (fun s' caps' => k s' (<[n := take (length s - length s') s]> caps'))
  end.
End Matcher.

(** A match starting at the first character. *)
Definition match_here (r : regex) (s : chars) : option captures :=
  rmatch r s ∅ (fun _ caps => Some caps).

(** [RegExp.prototype.exec] without the global flag: the leftmost match. *)
Fixpoint exec (r : regex) (s : chars) : option captures :=
  match match_here r s with
  | Some caps => Some caps
  | None =>
      match s with
      | [] => None
      | _ :: s' => exec r s'
      end
  end.

(** [match[n]] as a string ([undefined] becomes the empty string; the groups
    of the progress expression always take part in a match). *)
Definition group (n : nat) (m : captures) : string :=
  string_of_list_ascii (default [] (m !! n)).

(** ** The progress line

    [/\[download\]\s+(\d+\.\d+)%.*?\s(\d+\.\d+\w+\/s)\sETA\s([\d:]+)/] *)
Definition progress_re : regex :=
  Cats [ Lit "[download]"; Plus isSpace;
         Group 1 (Cats [Plus isDigit; Char "."; Plus isDigit]);
         Char "%"; LazyStar isDot; Class isSpace;
         Group 2 (Cats [Plus isDigit; Char "."; Plus isDigit; Plus isWord;
                        Char "/"; Char "s"]);
         Class isSpace; Lit "ETA"; Class isSpace;
         Group 3 (Plus isDigitOrColon) ].

(** The value of a run of decimal digits, most significant first. *)
Fixpoint digits_value (acc : Z) (ds : chars) : option Z :=
  match ds with
  | [] => Some acc
  | d :: ds' =>
      if isDigit d
      then digits_value (10 * acc + (Z.of_nat (nat_of_ascii d) - 48)) ds'
      else None
  end.

Fixpoint split_dot (s : chars) : option (chars * chars) :=
  match s with
  | [] => None
  | c :: s' =>
      if Ascii.eqb c "." then Some ([], s')
      else match split_dot s' with
           | Some (a, b) => Some (c :: a, b)
           | None => None
           end
  end.

(** [Number(text)] on a decimal literal [digits.digits], the only shape the
    first group of the progress expression can capture; any other text is
    mapped to [NaN] here.  The result names the exact decimal value, which
    stands for the double nearest to it as said above. *)
Definition Number (text : string) : number :=
  match split_dot (list_ascii_of_string text) with
  | Some (ip, fp) =>
      match ip, fp, digits_value 0 (ip ++ fp) with
      | _ :: _, _ :: _, Some v =>
          Fin (Qred (Qmake v (Pos.pow 10 (Pos.of_nat (length fp)))))
      | _, _, _ => NaN
      end
  | None => NaN
  end.


(** ** Progress snapshots and the progress store *)

Inductive Status : Type := starting | downloading | completed | error.

Global Instance Status_eq_dec : EqDecision Status.
Proof. solve_decision. Defined.

(** The object stored per download id.  [None] is an absent property. *)
Record snapshot : Type := Snapshot {
  snap_status : Status;
  snap_percent : option number;
  snap_speed : option (nullable string);
  snap_eta : option (nullable string);
  snap_error : option string
}.

(** [{ status: 'starting', percent: 0, speed: null, eta: null }] *)
Definition snapshot_starting : snapshot :=
  Snapshot starting (Some (Fin 0)) (Some Null) (Some Null) None.

(** [{ status: 'downloading', percent, speed, eta }] *)
Definition snapshot_downloading (percent : number) (speed eta : string)
    : snapshot :=
  Snapshot downloading (Some percent) (Some (Val speed)) (Some (Val eta)) None.

(** [{ status: 'completed', percent: 100 }] *)
Definition snapshot_completed : snapshot :=
  Snapshot completed (Some (Fin 100)) None None None.

(** [{ status: 'error', error: message }] *)
Definition snapshot_error (message : string) : snapshot :=
  Snapshot error None None None (Some message).

(** What the handlers share: the [progressMap], the files on disk, and a
    ghost record of every [progressMap.set], oldest first.  [refused] holds
    the paths the file system will not make a directory (a file in the way,
    a missing permission): creating one of them throws. *)
Record world : Type := World {
  progressMap : gmap string snapshot;
  history : list (string * snapshot);
  disk : gset string;
  refused : gset string
}.

Definition empty_world (files : gset string) : world := World ∅ [] files ∅.

Definition progressMap_set (id : string) (p : snapshot) (w : world) : world :=
  World (<[id := p]> (progressMap w)) (history w ++ [(id, p)]) (disk w)
    (refused w).

Definition progressMap_get (id : string) (w : world) : option snapshot :=
  progressMap w !! id.

Definition fs_existsSync (path : string) (w : world) : bool :=
  bool_decide (path ∈ disk w).

(** The directories above [path], as the separator [/] delimits them: every
    non-empty beginning of [path] that ends right before a [/].  This reads
    a path in normal form, as [path.join] returns it. *)
Fixpoint ancestors_from (above path : string) : list string :=
  match path with
  | "" => []
  | String c rest =>
      (if Ascii.eqb c "/" && negb (bool_decide (above = ""))
       then [above] else [])
      ++ ancestors_from (above +:+ String c "") rest
  end.

Definition ancestors (path : string) : list string := ancestors_from "" path.

(** The directories [fs.mkdirSync(path, { recursive: true })] goes through,
    outermost first. *)
Definition mkdir_chain (path : string) : list string :=
  ancestors path ++ [path].

(** The directories of [dirs] that come to exist: all of them up to the
    first one the file system refuses. *)
Fixpoint made_dirs (no : gset string) (dirs : list string) : list string :=
  match dirs with
  | [] => []
  | d :: rest =>
      if bool_decide (d ∈ no) then [] else d :: made_dirs no rest
  end.

(** Whether [fs.mkdirSync(path, { recursive: true })] throws. *)
Definition fs_mkdirSync_throws (path : string) (w : world) : bool :=
  existsb (λ d, bool_decide (d ∈ refused w)) (mkdir_chain path).

(** The world after [fs.mkdirSync(path, { recursive: true })]: the
    directory and the directories above it come to exist; when the call
    throws, those above the refused one are left behind. *)
Definition fs_mkdirSync (path : string) (w : world) : world :=
  World (progressMap w) (history w)
    (list_to_set (made_dirs (refused w) (mkdir_chain path)) ∪ disk w)
    (refused w).

(** ** The process runner [runYtDlp] *)

(** The promise returned by [runYtDlp]; a rejection carries the message of
    its error. *)
Inductive promise : Type :=
| Pending
| Resolved
| Rejected (message : string).

(** [resolve()] and [reject(err)] settle a pending promise and do nothing
    to a settled one. *)
Definition resolve (p : promise) : promise :=
  match p with
  | Pending => Resolved
  | _ => p
  end.

Definition reject (message : string) (p : promise) : promise :=
  match p with
  | Pending => Rejected message
  | _ => p
  end.

(** One invocation of [runYtDlp]: its parameters, the [stderr] accumulator
    and the promise. *)
Record closure : Type := Closure {
  args : list string;
  outputPath : string;
  id : string;
  stderr : string;
  settled : promise
}.

(** The events of the child process the runner listens to.  The exit code
    of ['close'] is [null] when a signal ended the process. *)
Inductive event : Type :=
| stdout_data (data : string)
| stderr_data (data : string)
| child_error (message : string)
| child_close (code : option Z).

(** [spawn] throws, before a child exists, when one of its arguments holds
    the NUL character. *)
Definition has_NUL (s : string) : bool :=
  existsb (Ascii.eqb Ascii.zero) (list_ascii_of_string s).

Definition spawn_throws (args : list string) : bool := existsb has_NUL args.

(** The body of [runYtDlp] once [spawn] has returned a child, up to the
    registration of the listeners.  When [spawn] throws instead, the
    executor stops before [progressMap.set]: nothing is stored, no listener
    is registered and the promise is rejected; the routes below test
    [spawn_throws] for that before they enter this body.  A child that
    cannot be started for another reason is reported by ['error']. *)
Definition runYtDlp (args : list string) (outputPath id : string) (w : world)
    : world * closure :=
  (progressMap_set id snapshot_starting w,
   Closure args outputPath id "" Pending).

(** [line.match(progress_re)] and the update built from the groups. *)
Definition parse_progress (line : string) : option snapshot :=
  match exec progress_re (list_ascii_of_string line) with
  | Some m =>
      Some (snapshot_downloading (Number (group 1 m)) (group 2 m) (group 3 m))
  | None => None
  end.

Definition on_stdout (data : string) (w : world) (c : closure)
    : world * closure :=
  match parse_progress data with
  | Some p => (progressMap_set (id c) p w, c)
  | None => (w, c)
  end.

Definition on_stderr (data : string) (w : world) (c : closure)
    : world * closure :=
  (w, Closure (args c) (outputPath c) (id c) (stderr c +:+ data) (settled c)).

Definition on_error (message : string) (w : world) (c : closure)
    : world * closure :=
  (progressMap_set (id c) (snapshot_error message) w,
   Closure (args c) (outputPath c) (id c) (stderr c) (reject message (settled c))).

(** The text of [code] inside a template literal. *)
Definition code_text (code : option Z) : string :=
  match code with
  | Some n => pretty n
  | None => "null"
  end.

(** [stderr || `yt-dlp exited with code ${code}`] *)
Definition close_message (stderr : string) (code : option Z) : string :=
  match stderr with
  | "" => "yt-dlp exited with code " +:+ code_text code
  | _ => stderr
  end.

Definition on_close (code : option Z) (w : world) (c : closure)
    : world * closure :=
  if bool_decide (code = Some 0%Z) && fs_existsSync (outputPath c) w then
    (progressMap_set (id c) snapshot_completed w,
     Closure (args c) (outputPath c) (id c) (stderr c) (resolve (settled c)))
  else
    let message := close_message (stderr c) code in
    (progressMap_set (id c) (snapshot_error message) w,
     Closure (args c) (outputPath c) (id c) (stderr c)
       (reject message (settled c))).

Definition handle (e : event) (w : world) (c : closure) : world * closure :=
  match e with
  | stdout_data data => on_stdout data w c
  | stderr_data data => on_stderr data w c
  | child_error message => on_error message w c
  | child_close code => on_close code w c
  end.

(** ** The environment of one run *)

Inductive fs_change : Type :=
| created (path : string)
| removed (path : string).

Definition apply_fs (ch : fs_change) (w : world) : world :=
  match ch with
  | created path =>
      World (progressMap w) (history w) ({[path]} ∪ disk w) (refused w)
  | removed path =>
      World (progressMap w) (history w) (disk w ∖ {[path]}) (refused w)
  end.

(** What can happen between the start of the child and its end: output on
    either stream, and changes of the disk. *)
Inductive activity : Type :=
| Out (data : string)
| Err (data : string)
| Fs (change : fs_change).

Definition act (s : world * closure) (a : activity) : world * closure :=
  match a with
  | Out data => on_stdout data s.1 s.2
  | Err data => on_stderr data s.1 s.2
  | Fs ch => (apply_fs ch s.1, s.2)
  end.

Definition run (acts : list activity) (s : world * closure)
    : world * closure :=
  foldl act s acts.

(** How a child ends.  An exited child emits ['close'] with its code.  A
    child that could not be spawned emits ['error'], and Node then emits
    ['close'] with the negated errno (-2 for ENOENT) before any reaction of
    the promise runs; the second event is optional here. *)
Inductive outcome : Type :=
| Exited (code : option Z)
| LaunchFailed (message : string) (errno : option positive).

Definition finish (o : outcome) (s : world * closure) : world * closure :=
  match o with
  | Exited code => on_close code s.1 s.2
  | LaunchFailed message None => on_error message s.1 s.2
  | LaunchFailed message (Some errno) =>
      let s' := on_error message s.1 s.2 in
      on_close (Some (Z.neg errno)) s'.1 s'.2
  end.

(** The statuses written for [id], oldest first. *)
Definition statuses (id : string) (w : world) : list Status :=
  (λ e, snap_status e.2) <$> filter (λ e, e.1 = id) (history w).

(** The stderr text of a run, in order of arrival. *)
Fixpoint stderr_text (acts : list activity) : string :=
  match acts with
  | [] => ""
  | Err data :: acts' => data +:+ stderr_text acts'
  | _ :: acts' => stderr_text acts'
  end.

(** The number of stdout chunks of a run that carry a progress line. *)
Fixpoint progress_lines (acts : list activity) : nat :=
  match acts with
  | [] => 0
  | Out data :: acts' =>
      (if parse_progress data is Some _ then 1 else 0) + progress_lines acts'
  | _ :: acts' => progress_lines acts'
  end.

(** The progress snapshots a run writes, in order. *)
Fixpoint progress_snaps (acts : list activity) : list snapshot :=
  match acts with
  | [] => []
  | Out data :: acts' =>
      match parse_progress data with
      | Some p => p :: progress_snaps acts'
      | None => progress_snaps acts'
      end
  | _ :: acts' => progress_snaps acts'
  end.

(** ** The routes *)

(** [/^(https?:\/\/)?(www\.)?(youtube\.com|youtu\.be)\//]; the anchor makes
    [test] a match at the first character. *)
Definition youtube_re : regex :=
  Cats [ Opt (Group 1 (Cats [Lit "http"; Opt (Char "s"); Lit "://"]));
         Opt (Group 2 (Lit "www."));
         Group 3 (Alt (Lit "youtube.com") (Lit "youtu.be"));
         Char "/" ].

Definition isValidYouTubeUrl (url : string) : bool :=
  match match_here youtube_re (list_ascii_of_string url) with
  | Some _ => true
  | None => false
  end.

(** [quality.replace(/p/i, '')]: the first [p] or [P] is dropped. *)
Fixpoint replace_p (s : string) : string :=
  match s with
  | "" => ""
  | String c s' =>
      if Ascii.eqb c "p" || Ascii.eqb c "P" then s'
      else String c (replace_p s')
  end.

(** [`bestvideo[height<=${quality.replace(/p/i, '')}]+bestaudio/best[ext=${format}]`] *)
Definition format_filter (quality format : string) : string :=
  "bestvideo[height<=" +:+ replace_p quality
    +:+ "]+bestaudio/best[ext=" +:+ format +:+ "]".

(** The fields the routes read from [req.body]; [None] is [undefined].
    The values are strings, and a boolean for [audioOnly], as in a request
    of the documented shape. *)
Record body : Type := Body {
  url : option string;
  quality : option string;
  format : option string;
  startTime : option string;
  endTime : option string;
  audioOnly : option bool
}.

(** [!url || !isValidYouTubeUrl(url)] *)
Definition invalid_url (u : option string) : bool :=
  match u with
  | Some (String c s) => negb (isValidYouTubeUrl (String c s))
  | _ => true
  end.

Inductive progress_reply : Type :=
| NotFound (error : string)
| Ok (progress : snapshot).

(** [GET /download/progress/:id] *)
Definition get_download_progress (id : string) (w : world) : progress_reply :=
  match progressMap_get id w with
  | None => NotFound "Unknown download id"
  | Some p => Ok p
  end.

Section Routes.
(** [path.join] of Node on two segments, and the download directory read
    from the environment when the module loads. *)
Variable path_join : string -> string -> string.
Variable DOWNLOAD_DIR : string.

(** The trim arguments pushed when [startTime || endTime]. *)
Definition trim_args (startTime endTime : option string) : list string :=
  if truthy startTime || truthy endTime then
    let section := or_else startTime "0" +:+ "-" +:+ or_else endTime "inf" in
    ["--download-sections"; "*" +:+ section]
  else [].

(** [POST /download/video].  [uuid] is the value of [uuidv4()].  The
    result is [None] when no run was started: for the 400 reply, and when
    [spawn] threw inside [runYtDlp], whose rejection goes to [next]. *)
Definition post_download_video (b : body) (uuid : string) (w : world)
    : world * option closure :=
  let quality := default_to "720p" (quality b) in
  let format := default_to "mp4" (format b) in
  if invalid_url (url b) then (w, None)
  else
    let url := default_to "" (url b) in
    let id := uuid in
    let filename := id +:+ "." +:+ format in
    let outputPath := path_join DOWNLOAD_DIR filename in
    let args :=
      [url; "-f"; format_filter quality format; "-o"; outputPath;
       "--no-playlist"] ++ trim_args (startTime b) (endTime b) in
    if spawn_throws args then (w, None)
    else
      let '(w', c) := runYtDlp args outputPath id w in
      (w', Some c).

(** [POST /download/audio] *)
Definition post_download_audio (b : body) (uuid : string) (w : world)
    : world * option closure :=
  let format := default_to "mp3" (format b) in
  let quality := default_to "192k" (quality b) in
  if invalid_url (url b) then (w, None)
  else
    let url := default_to "" (url b) in
    let id := uuid in
    let filename := id +:+ "." +:+ format in
    let outputPath := path_join DOWNLOAD_DIR filename in
    let args :=
      [url; "-x"; "--audio-format"; format; "--audio-quality"; quality;
       "-o"; outputPath; "--no-playlist"] in
    if spawn_throws args then (w, None)
    else
      let '(w', c) := runYtDlp args outputPath id w in
      (w', Some c).

Definition playlist_template (folder : string) : string :=
  path_join folder "%(playlist_index)s-%(id)s.%(ext)s".

(** [POST /download/playlist].  No run is started either when
    [fs.mkdirSync] throws: the [catch] hands the error to [next]. *)
Definition post_download_playlist (b : body) (uuid : string) (w : world)
    : world * option closure :=
  let quality := default_to "720p" (quality b) in
  let format := default_to "mp4" (format b) in
  let audioOnly := default_to false (audioOnly b) in
  if invalid_url (url b) then (w, None)
  else
    let url := default_to "" (url b) in
    let id := uuid in
    let folder := path_join DOWNLOAD_DIR id in
    let w1 := fs_mkdirSync folder w in
    if fs_mkdirSync_throws folder w then (w1, None)
    else
      let template := playlist_template folder in
      let args :=
        if audioOnly
        then [url; "-x"; "--audio-format"; format; "-o"; template]
        else [url; "-f"; format_filter quality format; "-o"; template] in
      if spawn_throws args then (w1, None)
      else
        let '(w', c) := runYtDlp args folder id w1 in
        (w', Some c).

(** *** The server: every invocation of [runYtDlp] alive at once *)

Record server : Type := Server {
  shared : world;
  jobs : list closure
}.

Inductive input : Type :=
| POST_video (b : body) (uuid : string)
| POST_audio (b : body) (uuid : string)
| POST_playlist (b : body) (uuid : string)
| child_event (n : nat) (e : event)
| disk_change (ch : fs_change).

Definition launched (s : server) (r : world * option closure) : server :=
  match r.2 with
  | Some c => Server r.1 (jobs s ++ [c])
  | None => Server r.1 (jobs s)
  end.

Definition serve (s : server) (i : input) : server :=
  match i with
  | POST_video b uuid => launched s (post_download_video b uuid (shared s))
  | POST_audio b uuid => launched s (post_download_audio b uuid (shared s))
  | POST_playlist b uuid =>
      launched s (post_download_playlist b uuid (shared s))
  | child_event n e =>
      match jobs s !! n with
      | Some c =>
          let r := handle e (shared s) c in
          Server r.1 (<[n := r.2]> (jobs s))
      | None => s
      end
  | disk_change ch => Server (apply_fs ch (shared s)) (jobs s)
  end.

Definition boot (files : gset string) : server :=
  Server (empty_world files) [].

Definition serve_all (inputs : list input) (s : server) : server :=
  foldl serve s inputs.

(** The ids [uuidv4()] is called for: one per request with an accepted
    URL. *)
Definition allocated (i : input) : list string :=
  match i with
  | POST_video b uuid | POST_audio b uuid | POST_playlist b uuid =>
      if invalid_url (url b) then [] else [uuid]
  | _ => []
  end.
End Routes.

(** A [path.join] for examples: two plain segments under POSIX. *)
Definition join_slash (a b : string) : string := a +:+ "/" +:+ b.

(** ** What a match looks like

    [derives r w caps caps'] holds when [r] can match exactly the text [w],
    taking the captures from [caps] to [caps'].  It is the declarative
    counterpart of [rmatch], used to reason about every possible match. *)
Inductive derives : regex -> chars -> captures -> captures -> Prop :=
| derives_Empty caps : derives Empty [] caps caps
| derives_Char c caps : derives (Char c) [c] caps caps
| derives_Class (p : ascii -> bool) c caps :
    p c = true -> derives (Class p) [c] caps caps
| derives_Cat r1 r2 w1 w2 caps caps1 caps2 :
    derives r1 w1 caps caps1 -> derives r2 w2 caps1 caps2 ->
    derives (Cat r1 r2) (w1 ++ w2) caps caps2
| derives_Alt_l r1 r2 w caps caps' :
    derives r1 w caps caps' -> derives (Alt r1 r2) w caps caps'
| derives_Alt_r r1 r2 w caps caps' :
    derives r2 w caps caps' -> derives (Alt r1 r2) w caps caps'
| derives_Repeat g (min : nat) (p : ascii -> bool) w caps :
    Forall (λ c, p c = true) w -> (min ≤ length w)%nat ->
    derives (Repeat g min p) w caps caps
| derives_Group n r w caps caps' :
    derives r w caps caps' -> derives (Group n r) w caps (<[n := w]> caps').

(** ** Notions used by the properties *)

(** The number of terminal writes an outcome causes. *)
Definition terminal_writes (o : outcome) : nat :=
  match o with
  | LaunchFailed _ (Some _) => 2
  | _ => 1
  end.

(** A start or end time counts as supplied when it is a non-empty
    string. *)
Definition supplied (t : option string) : option string :=
  match t with
  | Some "" => None
  | _ => t
  end.

(** The last snapshot written for [k]. *)
Definition latest (k : string) (h : list (string * snapshot))
    : option snapshot :=
  snd <$> last (filter (λ e, e.1 = k) h).

(** The percent field each status carries. *)
Definition percent_by_status (p : snapshot) : Prop :=
  match snap_status p with
  | starting => snap_percent p = Some (Fin 0)
  | downloading => ∃ q, snap_percent p = Some (Fin q) ∧ (0 <= q)%Q
  | completed => snap_percent p = Some (Fin 100)
  | error => snap_percent p = None
  end.

(** What the listeners and routes keep true of the shared world: the map
    holds the latest write of every key, only ids in [ids] were written, and
    every written snapshot has the percent of its status. *)
Record world_inv (ids : list string) (w : world) : Prop := WorldInv {
  inv_latest : ∀ k, progressMap w !! k = latest k (history w);
  inv_keys : ∀ e, e ∈ history w -> e.1 ∈ ids;
  inv_percent : Forall (λ e, percent_by_status e.2) (history w)
}.

(** The invariant of the server: the shared world is well formed for the
    ids allocated so far, every invocation belongs to one of them, and
    each of them has been written. *)
Record server_inv (ids : list string) (s : server) : Prop := ServerInv {
  inv_world : world_inv ids (shared s);
  inv_jobs : Forall (λ c, id c ∈ ids) (jobs s);
  inv_written : ∀ k, k ∈ ids -> is_Some (latest k (history (shared s)))
}.

(** The percent clause of the data model as the specification words it. *)
Definition percent_in_range (p : snapshot) : Prop :=
  ∀ x, snap_percent p = Some x ->
       ∃ q, x = Fin q ∧ (0 <= q)%Q ∧ (q <= 100)%Q.

Definition percent_only_when_active (p : snapshot) : Prop :=
  is_Some (snap_percent p) ->
  snap_status p = downloading ∨ snap_status p = completed.

Definition percent_as_specified (p : snapshot) : Prop :=
  percent_in_range p ∧ percent_only_when_active p.

(** The second half of the progress query as the specification words it:
    every allocated id is answered with a snapshot. *)
Definition allocated_are_answered (ids : list string) (w : world) : Prop :=
  ∀ jid, jid ∈ ids -> ∃ p, get_download_progress jid w = Ok p.

(** A request whose URL passes [isValidYouTubeUrl] and holds NUL. *)
Definition sample_nul : body :=
  Body (Some ("https://youtu.be/" +:+ String Ascii.zero "x"))
    None None None None None.

(** Sample requests. *)
Definition sample_video : body :=
  Body (Some "https://www.youtube.com/watch?v=dQw4w9WgXcQ&list=PL1")
    (Some "1080p") (Some "webm") (Some "10") None None.

Definition sample_playlist (audio : bool) : body :=
  Body (Some "https://www.youtube.com/playlist?list=PL1")
    (Some "480p") (Some "mp4") None None (Some audio).

(** ** [safeName] *)

(** The characters of the class of [safeName]: backslash, slash, colon,
    star, question mark, double quote, angle brackets and bar. *)
Definition isForbidden (c : ascii) : bool :=
  bool_decide (nat_of_ascii c ∈ [92; 47; 58; 42; 63; 34; 60; 62; 124]).

(** [text.replace(/[class]+/g, '_')]: every maximal run of forbidden
    characters becomes one underscore.  [in_run] tells that the run the
    scan is in has been replaced already. *)
Fixpoint replace_runs (in_run : bool) (s : chars) : chars :=
  match s with
  | [] => []
  | c :: s' =>
      if isForbidden c then
        if in_run then replace_runs true s'
        else "_"%char :: replace_runs true s'
      else c :: replace_runs false s'
  end.

(** [name.replace(/[class]+/g, '_').slice(0, 140)] *)
Definition safeName (name : string) : string :=
  string_of_list_ascii
    (take 140 (replace_runs false (list_ascii_of_string name))).

(** ** The rest of the routes *)

(** The beginnings [isValidYouTubeUrl] accepts: an optional scheme, an
    optional [www.], one of the two hosts, and a slash. *)
Definition youtube_prefixes : list string :=
  scheme ← [""; "http://"; "https://"];
  www ← [""; "www."];
  host ← ["youtube.com"; "youtu.be"];
  [scheme +:+ www +:+ host +:+ "/"].

(** The listeners run on a sequence of events, in order of arrival. *)
Definition deliver (es : list event) (s : world * closure)
    : world * closure :=
  foldl (λ s e, handle e s.1 s.2) s es.

(** [POST /validate/url]: the value sent as both [success] and [valid],
    [!!url && isValidYouTubeUrl(url)]. *)
Definition post_validate_url (b : body) : bool :=
  match url b with
  | Some (String c s) => isValidYouTubeUrl (String c s)
  | _ => false
  end.

(** Which of [speed], [eta] and [error] a snapshot carries, by status. *)
Definition fields_by_status (p : snapshot) : Prop :=
  match snap_status p with
  | starting =>
      snap_speed p = Some Null ∧ snap_eta p = Some Null ∧ snap_error p = None
  | downloading =>
      (∃ speed, snap_speed p = Some (Val speed))
      ∧ (∃ eta, snap_eta p = Some (Val eta)) ∧ snap_error p = None
  | completed =>
      snap_speed p = None ∧ snap_eta p = None ∧ snap_error p = None
  | error =>
      snap_speed p = None ∧ snap_eta p = None ∧ is_Some (snap_error p)
  end.

(** ** Loading the module *)



(** ** The metadata routes *)


(** The chunks a child writes, by stream. *)
Inductive chunk : Type :=
| out_chunk (data : string)
| err_chunk (data : string).

Definition chunk_event (c : chunk) : event :=
  match c with
  | out_chunk data => stdout_data data
  | err_chunk data => stderr_data data
  end.

Fixpoint chunks_out (cs : list chunk) : string :=
  match cs with
  | [] => ""
  | out_chunk data :: cs' => data +:+ chunks_out cs'
  | err_chunk _ :: cs' => chunks_out cs'
  end.

Fixpoint chunks_err (cs : list chunk) : string :=
  match cs with
  | [] => ""
  | err_chunk data :: cs' => data +:+ chunks_err cs'
  | out_chunk _ :: cs' => chunks_err cs'
  end.

Section Metadata.
(** The values of [JSON.parse], which throws on text that is not JSON. *)
Variable J : Type.
Variable JSON_parse : string -> option J.

(** The replies of the two routes: [{ success: true, data }],
    [{ success: true, formats }], and [{ success: false, error }] under a
    status code. *)
Inductive reply : Type :=
| json_data (data : J)
| json_formats (formats : string)
| json_failure (status : nat) (error : string).

(** A request of either route: gathering the output of its child, answered,
    or ended by an ['error'] event, to which these routes do not listen
    (Node raises it as an uncaught exception). *)
Inductive metadata_state : Type :=
| Gathering (out err : string)
| Replied (r : reply)
| Unhandled (message : string).



(** The listeners of a metadata request; ['close'] ends the child, so
    nothing is listened to after it. *)
Definition metadata_listen (close : option Z -> string -> string -> reply)
    (st : metadata_state) (e : event) : metadata_state :=
  match st with
  | Gathering out err =>
      match e with
      | stdout_data d => Gathering (out +:+ d) err
      | stderr_data d => Gathering out (err +:+ d)
      | child_close code => Replied (close code out err)
      | child_error message => Unhandled message
      end
  | _ => st
  end.



End Metadata.
Arguments json_formats {J} formats.
Arguments json_failure {J} status error.
Arguments Gathering {J} out err.
Arguments Unhandled {J} message.


(** * Properties *)

(** ** Soundness of the matcher *)

Section MatcherSound.
Context {R : Type}.
Implicit Types (k : @cont R) (s w : chars) (caps : captures).

Lemma repeat_greedy_sound p s : ∀ min caps k res,
  repeat_greedy p min s caps k = Some res ->
  ∃ w s', s = w ++ s' ∧ Forall (λ c, p c = true) w ∧ (min ≤ length w)%nat
          ∧ k s' caps = Some res.
Proof.
  induction s as [|c s IH]; intros min caps k res H; simpl in H.
  - destruct min; [|done]. exists [], []. by repeat split.
  - assert (Hstop : match min with O => k (c :: s) caps | S _ => None end
                    = Some res ->
                    ∃ w s', c :: s = w ++ s' ∧ Forall (λ c, p c = true) w
                            ∧ (min ≤ length w)%nat ∧ k s' caps = Some res).
    { destruct min; [|done]. intros Hk. exists [], (c :: s).
      by repeat split. }
    destruct (p c) eqn:Hp; [|by apply Hstop].
    destruct (repeat_greedy p (pred min) s caps k) as [x|] eqn:Hrec;
      simpl in H; [|by apply Hstop].
    injection H as ->. apply IH in Hrec as (w & s' & -> & Hw & Hmin & Hk).
    exists (c :: w), s'. repeat split; [by constructor | simpl; lia | done].
Qed.

Lemma repeat_lazy_sound p s : ∀ min caps k res,
  repeat_lazy p min s caps k = Some res ->
  ∃ w s', s = w ++ s' ∧ Forall (λ c, p c = true) w ∧ (min ≤ length w)%nat
          ∧ k s' caps = Some res.
Proof.
  induction s as [|c s IH]; intros min caps k res H; simpl in H.
  - destruct min; [|done]. destruct (k [] caps) eqn:Hk; [|done].
    exists [], []. simpl in H. by repeat split; [| |congruence].
  - assert (Hmore : (if p c then repeat_lazy p (pred min) s caps k else None)
                    = Some res ->
                    ∃ w s', c :: s = w ++ s' ∧ Forall (λ c, p c = true) w
                            ∧ (min ≤ length w)%nat ∧ k s' caps = Some res).
    { destruct (p c) eqn:Hp; [|done]. intros Hrec.
      apply IH in Hrec as (w & s' & -> & Hw & Hmin & Hk).
      exists (c :: w), s'.
      repeat split; [by constructor | simpl; lia | done]. }
    destruct min; [|by apply Hmore].
    destruct (k (c :: s) caps) as [x|] eqn:Hk; simpl in H;
      [|by apply Hmore].
    injection H as ->. exists [], (c :: s). by repeat split.
Qed.

Lemma rmatch_sound r : ∀ s caps k res,
  rmatch r s caps k = Some res ->
  ∃ w s' caps', s = w ++ s' ∧ derives r w caps caps'
                ∧ k s' caps' = Some res.
Proof.
  induction r as [|c|p|r1 IH1 r2 IH2|r1 IH1 r2 IH2|g min p|n r IH];
    intros s caps k res H; simpl in H.
  - exists [], s, caps. split_and!; [done | constructor | done].
  - destruct s as [|c' s]; [done|].
    destruct (Ascii.eqb_spec c c') as [<-|]; [|done].
    exists [c], s, caps. split_and!; [done | constructor | done].
  - destruct s as [|c' s]; [done|]. destruct (p c') eqn:Hp; [|done].
    exists [c'], s, caps. split_and!; [done | by constructor | done].
  - apply IH1 in H as (w1 & s1 & caps1 & -> & H1 & H).
    apply IH2 in H as (w2 & s2 & caps2 & -> & H2 & H).
    exists (w1 ++ w2), s2, caps2.
    split_and!; [by rewrite <- app_assoc | by econstructor | done].
  - destruct (rmatch r1 s caps k) as [x|] eqn:Hl; simpl in H.
    + injection H as ->. apply IH1 in Hl as (w & s' & caps' & ? & ? & ?).
      exists w, s', caps'. split_and!; [done | by constructor | done].
    + apply IH2 in H as (w & s' & caps' & ? & ? & ?).
      exists w, s', caps'.
      split_and!; [done | by apply derives_Alt_r | done].
  - assert (∃ w s', s = w ++ s' ∧ Forall (λ c, p c = true) w
                    ∧ (min ≤ length w)%nat ∧ k s' caps = Some res)
      as (w & s' & ? & ? & ? & ?).
    { destruct g; [by eapply repeat_greedy_sound
                  | by eapply repeat_lazy_sound]. }
    exists w, s', caps. split_and!; [done | by constructor | done].
  - apply IH in H as (w & s' & caps' & -> & Hr & H).
    exists w, s', (<[n := w]> caps'). split_and!; [done | by constructor |].
    rewrite length_app, Nat.add_sub, take_app_length in H. done.
Qed.
End MatcherSound.

Lemma match_here_sound r s m :
  match_here r s = Some m -> ∃ w s', s = w ++ s' ∧ derives r w ∅ m.
Proof.
  intros H. apply rmatch_sound in H as (w & s' & caps' & ? & ? & [= <-]).
  by exists w, s'.
Qed.

Lemma exec_sound r s : ∀ m,
  exec r s = Some m -> ∃ pre w post, s = pre ++ w ++ post ∧ derives r w ∅ m.
Proof.
  induction s as [|c s IH]; intros m H; simpl in H.
  - destruct (match_here r []) eqn:Hm; [|done]. injection H as ->.
    apply match_here_sound in Hm as (w & s' & ? & ?). by exists [], w, s'.
  - destruct (match_here r (c :: s)) eqn:Hm.
    + injection H as ->. apply match_here_sound in Hm as (w & s' & ? & ?).
      by exists [], w, s'.
    + apply IH in H as (pre & w & post & -> & ?). by exists (c :: pre), w, post.
Qed.

(** ** The shape of a progress match *)

Ltac inv_derives :=
  unfold Plus, LazyStar, Opt in *;
  repeat match goal with
  | H : derives Empty _ _ _ |- _ => inversion H; subst; clear H
  | H : derives (Char _) _ _ _ |- _ => inversion H; subst; clear H
  | H : derives (Class _) _ _ _ |- _ => inversion H; subst; clear H
  | H : derives (Cat _ _) _ _ _ |- _ => inversion H; subst; clear H
  | H : derives (Repeat _ _ _) _ _ _ |- _ => inversion H; subst; clear H
  | H : derives (Group _ _) _ _ _ |- _ => inversion H; subst; clear H
  end.

Lemma progress_re_shape w caps m :
  derives progress_re w caps m ->
  ∃ d1 d2 pre post,
    w = pre ++ "%"%char :: post
    ∧ m !! 1 = Some (d1 ++ "."%char :: d2)
    ∧ Forall (λ c, isDigit c = true) d1 ∧ Forall (λ c, isDigit c = true) d2
    ∧ d1 ≠ [] ∧ d2 ≠ [].
Proof.
  intros H. unfold progress_re in H. cbn in H. inv_derives.
  match goal with
  | |- context [<[1 := ?d1 ++ _ ++ ?d2 ++ []]> _] => exists d1, d2
  end.
  match goal with
  | |- context [?pre ++ ?w0 ++ ?g1 ++ ["%"%char] ++ ?post] =>
      exists (pre ++ w0 ++ g1), post
  end.
  split_and!.
  - by rewrite <- !app_assoc.
  - rewrite !lookup_insert_ne, lookup_insert_eq by done.
    by rewrite app_nil_r.
  - done.
  - done.
  - intros ->. simpl in *. lia.
  - intros ->. simpl in *. lia.
Qed.

Lemma isDigit_not_dot c : isDigit c = true -> Ascii.eqb c "." = false.
Proof.
  intros H. destruct (Ascii.eqb_spec c ".") as [->|]; [|done].
  by vm_compute in H.
Qed.

Lemma split_dot_digits d1 d2 :
  Forall (λ c, isDigit c = true) d1 ->
  split_dot (d1 ++ "."%char :: d2) = Some (d1, d2).
Proof.
  induction 1 as [|c d1 Hc _ IH]; simpl; [done|].
  by rewrite (isDigit_not_dot c Hc), IH.
Qed.

Lemma digits_value_nonneg ds : ∀ acc,
  Forall (λ c, isDigit c = true) ds -> (0 ≤ acc)%Z ->
  ∃ v, digits_value acc ds = Some v ∧ (0 ≤ v)%Z.
Proof.
  induction ds as [|d ds IH]; intros acc Hds Hacc; simpl.
  - by exists acc.
  - inversion Hds as [|? ? Hd Hds']; subst. rewrite Hd. apply IH; [done|].
    unfold isDigit in Hd. apply andb_prop in Hd as [Hd _].
    apply Nat.leb_le in Hd. lia.
Qed.

Lemma Number_decimal d1 d2 :
  Forall (λ c, isDigit c = true) d1 -> Forall (λ c, isDigit c = true) d2 ->
  d1 ≠ [] -> d2 ≠ [] ->
  ∃ q, Number (string_of_list_ascii (d1 ++ "."%char :: d2)) = Fin q
       ∧ (0 <= q)%Q.
Proof.
  intros H1 H2 N1 N2. unfold Number.
  rewrite list_ascii_of_string_of_list_ascii, split_dot_digits by done.
  destruct (digits_value_nonneg (d1 ++ d2) 0) as (v & Hv & Hpos);
    [by apply Forall_app | done |].
  destruct d1 as [|a d1]; [done|]. destruct d2 as [|b d2]; [done|].
  rewrite Hv. eexists. split; [done|]. rewrite Qred_correct.
  unfold Qle. simpl. lia.
Qed.

Lemma parse_progress_Some line p :
  parse_progress line = Some p ->
  ∃ q speed eta,
    p = snapshot_downloading (Fin q) speed eta ∧ (0 <= q)%Q.
Proof.
  unfold parse_progress. intros H.
  destruct (exec progress_re _) as [m|] eqn:Hm; [|done]. injection H as <-.
  apply exec_sound in Hm as (pre & w & post & _ & Hd).
  apply progress_re_shape in Hd as (d1 & d2 & _ & _ & _ & H1 & ? & ? & ? & ?).
  destruct (Number_decimal d1 d2) as (q & Hq & ?); [done..|].
  exists q, (group 2 m), (group 3 m). split; [|done].
  unfold group at 1. rewrite H1. simpl. by rewrite Hq.
Qed.

Lemma parse_progress_needs_percent line :
  ¬ In "%"%char (list_ascii_of_string line) -> parse_progress line = None.
Proof.
  intros Hno. unfold parse_progress.
  destruct (exec progress_re _) as [m|] eqn:Hm; [|done]. exfalso.
  apply exec_sound in Hm as (pre & w & post & Hs & Hd).
  apply progress_re_shape in Hd as (_ & _ & a & b & -> & _).
  apply Hno. rewrite Hs. rewrite !in_app_iff. right. left. right. by left.
Qed.

(** ** One run of [runYtDlp] *)

Lemma append_cons x (a b : string) : String x a +:+ b = String x (a +:+ b).
Proof. reflexivity. Qed.

Lemma append_assoc (a b c : string) : (a +:+ b) +:+ c = a +:+ (b +:+ c).
Proof.
  induction a as [|x a IH]; [done|]. rewrite !append_cons. by f_equal.
Qed.

Lemma append_nil_r (a : string) : a +:+ "" = a.
Proof.
  induction a as [|x a IH]; [done|]. rewrite append_cons. by f_equal.
Qed.

Lemma act_closure s a :
  (act s a).2
  = Closure (args s.2) (outputPath s.2) (id s.2)
      (stderr s.2 +:+ stderr_text [a]) (settled s.2).
Proof.
  destruct s as [w c], a as [data|data|ch]; simpl.
  - unfold on_stdout. rewrite append_nil_r.
    by destruct (parse_progress data), c.
  - by rewrite append_nil_r.
  - rewrite append_nil_r. by destruct c.
Qed.

Lemma act_history s a :
  history (act s a).1
  = history s.1 ++ ((λ p, (id s.2, p)) <$> progress_snaps [a]).
Proof.
  destruct s as [w c], a as [data|data|ch]; simpl.
  - unfold on_stdout. destruct (parse_progress data); simpl; [done|].
    by rewrite app_nil_r.
  - by rewrite app_nil_r.
  - rewrite app_nil_r. by destruct ch.
Qed.

Lemma stderr_text_cons a acts :
  stderr_text (a :: acts) = stderr_text [a] +:+ stderr_text acts.
Proof. destruct a; simpl; [done | by rewrite append_nil_r | done]. Qed.

Lemma progress_snaps_cons a acts :
  progress_snaps (a :: acts) = progress_snaps [a] ++ progress_snaps acts.
Proof.
  destruct a as [data|data|ch]; simpl; [|done..].
  by destruct (parse_progress data).
Qed.

Lemma run_closure acts : ∀ s,
  (run acts s).2
  = Closure (args s.2) (outputPath s.2) (id s.2)
      (stderr s.2 +:+ stderr_text acts) (settled s.2).
Proof.
  induction acts as [|a acts IH]; intros s.
  - simpl. rewrite append_nil_r. by destruct s as [w []].
  - change (run (a :: acts) s) with (run acts (act s a)).
    rewrite IH, act_closure, (stderr_text_cons a acts). simpl.
    by rewrite append_assoc.
Qed.

Lemma run_history acts : ∀ s,
  history (run acts s).1
  = history s.1 ++ ((λ p, (id s.2, p)) <$> progress_snaps acts).
Proof.
  induction acts as [|a acts IH]; intros s.
  - simpl. by rewrite app_nil_r.
  - change (run (a :: acts) s) with (run acts (act s a)).
    rewrite IH, act_history, act_closure, (progress_snaps_cons a acts).
    simpl. by rewrite fmap_app, app_assoc.
Qed.

Lemma progress_snaps_status acts :
  snap_status <$> progress_snaps acts
  = replicate (progress_lines acts) downloading.
Proof.
  induction acts as [|a acts IH]; [done|].
  destruct a as [data|data|ch]; cbn [progress_snaps progress_lines];
    [|done..].
  destruct (parse_progress data) as [p|] eqn:Hp; [|done].
  apply parse_progress_Some in Hp as (q & speed & eta & -> & _).
  rewrite fmap_cons, IH. done.
Qed.

(** The disk after a run keeps every path that was not removed. *)
Lemma run_disk_keeps path acts : ∀ s,
  path ∈ disk s.1 ->
  Forall (λ a, a ≠ Fs (removed path)) acts ->
  path ∈ disk (run acts s).1.
Proof.
  induction acts as [|a acts IH]; intros s Hin Hacts; [done|].
  change (run (a :: acts) s) with (run acts (act s a)).
  inversion Hacts as [|? ? Ha Hacts']; subst. apply IH; [|done].
  destruct s as [w c], a as [data|data|ch]; simpl in *.
  - unfold on_stdout. by destruct (parse_progress data).
  - done.
  - destruct ch as [p|p]; simpl; [set_solver|].
    assert (p ≠ path) by congruence. set_solver.
Qed.

(** ** The end of a run *)

(** A run up to the end of the child leaves the promise pending and has
    gathered the stderr text. *)
Lemma run_started acts w0 argv out jid :
  (run acts (runYtDlp argv out jid w0)).2
  = Closure argv out jid (stderr_text acts) Pending.
Proof. by rewrite run_closure. Qed.




Lemma on_close_history code w c :
  ∃ p, history (on_close code w c).1 = history w ++ [(id c, p)]
       ∧ (snap_status p = completed ∨ snap_status p = error).
Proof.
  unfold on_close. destruct (_ && _); simpl; eexists; split; eauto.
Qed.

Lemma on_close_failure_history code w c :
  code ≠ Some 0%Z ->
  ∃ p, history (on_close code w c).1 = history w ++ [(id c, p)]
       ∧ snap_status p = error.
Proof.
  intros Hcode. unfold on_close. rewrite bool_decide_eq_false_2 by done.
  simpl. eexists; split; eauto.
Qed.

(** C3: the statuses written by one run are [starting], then one
    [downloading] per progress line, then a single terminal status; the
    ['close'] that follows a failed launch repeats the terminal status and
    nothing after a terminal write changes it. *)
Theorem status_sequence (w0 : world) argv out jid acts (o : outcome) :
  let s := finish o (run acts (runYtDlp argv out jid w0)) in
  ∃ writes t,
    history s.1 = history w0 ++ writes
    ∧ Forall (λ e, e.1 = jid) writes
    ∧ (λ e, snap_status e.2) <$> writes
      = [starting] ++ replicate (progress_lines acts) downloading
          ++ replicate (terminal_writes o) t
    ∧ (t = completed ∨ t = error).
Proof.
  intros s. set (r := run acts (runYtDlp argv out jid w0)).
  assert (Hh : history r.1
               = history w0 ++ (jid, snapshot_starting)
                   :: ((λ p, (jid, p)) <$> progress_snaps acts)).
  { unfold r. rewrite run_history. simpl. by rewrite <- app_assoc. }
  assert (Hid : id r.2 = jid) by (unfold r; by rewrite run_closure).
  assert (Hpre : Forall (λ e : string * snapshot, e.1 = jid)
                   ((jid, snapshot_starting)
                      :: ((λ p, (jid, p)) <$> progress_snaps acts))).
  { constructor; [done|]. apply Forall_fmap. by apply Forall_true. }
  assert (Hst : (λ e : string * snapshot, snap_status e.2)
                  <$> ((λ p, (jid, p)) <$> progress_snaps acts)
                = replicate (progress_lines acts) downloading).
  { rewrite <- list_fmap_compose. apply progress_snaps_status. }
  destruct o as [code|message [errno|]]; unfold s, finish; fold r;
    cbv zeta.
  - destruct (on_close_history code r.1 r.2) as (p & -> & Hp).
    exists ((jid, snapshot_starting)
              :: ((λ p, (jid, p)) <$> progress_snaps acts) ++ [(jid, p)]),
      (snap_status p).
    split_and!.
    + rewrite Hh, Hid. by rewrite <- app_assoc.
    + rewrite app_comm_cons. apply Forall_app. split; [done|].
      by constructor.
    + rewrite fmap_cons, fmap_app, Hst. done.
    + done.
  - set (e := on_error message r.1 r.2).
    unfold terminal_writes.
    destruct (on_close_failure_history (Some (Z.neg errno)) e.1 e.2)
      as (p & -> & Hp); [done|].
    exists ((jid, snapshot_starting)
              :: ((λ p, (jid, p)) <$> progress_snaps acts)
              ++ [(jid, snapshot_error message); (jid, p)]), error.
    split_and!.
    + unfold e. simpl. rewrite Hh, Hid. by rewrite <- !app_assoc.
    + rewrite app_comm_cons. apply Forall_app. split; [done|].
      by repeat constructor.
    + rewrite fmap_cons, fmap_app, Hst. simpl. by rewrite Hp.
    + by right.
  - exists ((jid, snapshot_starting)
              :: ((λ p, (jid, p)) <$> progress_snaps acts)
              ++ [(jid, snapshot_error message)]), error.
    split_and!.
    + unfold on_error. simpl. rewrite Hh, Hid. by rewrite <- app_assoc.
    + rewrite app_comm_cons. apply Forall_app. split; [done|].
      by constructor.
    + rewrite fmap_cons, fmap_app, Hst. done.
    + by right.
Qed.

(** The ['error'] listener puts the job in error with the message of the
    launch error and rejects the promise with that same error. *)
Lemma launch_failure_recorded (w0 : world) argv out jid acts message :
  let s := run acts (runYtDlp argv out jid w0) in
  let s' := on_error message s.1 s.2 in
  progressMap_get jid s'.1
    = Some (Snapshot error None None None (Some message))
  ∧ settled s'.2 = Rejected message
  ∧ (acts = [] ->
     history s'.1
     = history w0 ++ [(jid, snapshot_starting); (jid, snapshot_error message)]).
Proof.
  intros s s'. pose proof (run_started acts w0 argv out jid) as Hc.
  fold s in Hc. unfold s', on_error. rewrite Hc. simpl. split_and!.
  - unfold progressMap_get. simpl. by rewrite lookup_insert_eq.
  - done.
  - intros ->. simpl. by rewrite <- app_assoc.
Qed.

(** When Node emits ['close'] after the ['error'] of a failed launch, the
    status stays [error] and the promise keeps the launch error, while the
    stored message becomes the one built by the ['close'] listener. *)
Lemma close_after_launch_failure (w0 : world) argv out jid message errno :
  let s := finish (LaunchFailed message (Some errno))
             (runYtDlp argv out jid w0) in
  progressMap_get jid s.1
    = Some (snapshot_error
              ("yt-dlp exited with code " +:+ pretty (Z.neg errno)))
  ∧ settled s.2 = Rejected message.
Proof.
  simpl. unfold on_close. simpl. split; [|done].
  unfold progressMap_get. simpl. by rewrite lookup_insert_eq.
Qed.

(** ** The planned arguments *)

Lemma invalid_url_false u :
  invalid_url u = false -> ∃ v, u = Some v ∧ isValidYouTubeUrl v = true.
Proof.
  destruct u as [[|ch v]|]; simpl; [done| |done].
  intros H. apply negb_false_iff in H. eauto.
Qed.

Lemma replace_p_digits (N : string) :
  Forall (λ ch, isDigit ch = true) (list_ascii_of_string N) ->
  replace_p (N +:+ "p") = N.
Proof.
  induction N as [|ch N IH]; intros H; [done|].
  simpl in H. inversion H as [|? ? Hch HN]; subst.
  rewrite append_cons. simpl.
  assert (Ascii.eqb ch "p" = false ∧ Ascii.eqb ch "P" = false) as [-> ->].
  { split.
    - destruct (Ascii.eqb_spec ch "p") as [->|]; [by vm_compute in Hch|done].
    - destruct (Ascii.eqb_spec ch "P") as [->|]; [by vm_compute in Hch|done]. }
  simpl. by rewrite IH.
Qed.

Lemma made_dirs_all no dirs :
  existsb (λ d, bool_decide (d ∈ no)) dirs = false -> made_dirs no dirs = dirs.
Proof.
  induction dirs as [|d dirs IH]; simpl; [done|].
  destruct (bool_decide (d ∈ no)); simpl; [done|].
  intros H. by rewrite IH.
Qed.


Lemma mkdir_creates path w :
  fs_mkdirSync_throws path w = false -> path ∈ disk (fs_mkdirSync path w).
Proof.
  unfold fs_mkdirSync_throws. intros H. simpl. rewrite made_dirs_all by done.
  apply elem_of_union. left. apply elem_of_list_to_set.
  unfold mkdir_chain. apply elem_of_app. right. by left.
Qed.

Section RouteFacts.
Variable path_join : string -> string -> string.
Variable DOWNLOAD_DIR : string.

Abbreviation video := (post_download_video path_join DOWNLOAD_DIR).
Abbreviation playlist := (post_download_playlist path_join DOWNLOAD_DIR).

(** What a started single-video job looks like. *)
Lemma video_started b uuid w0 w1 c :
  video b uuid w0 = (w1, Some c) ->
  ∃ u, url b = Some u ∧ isValidYouTubeUrl u = true
    ∧ w1 = progressMap_set uuid snapshot_starting w0
    ∧ c = Closure
            ([u; "-f";
              format_filter (default_to "720p" (quality b))
                (default_to "mp4" (format b));
              "-o";
              path_join DOWNLOAD_DIR
                (uuid +:+ "." +:+ default_to "mp4" (format b));
              "--no-playlist"] ++ trim_args (startTime b) (endTime b))
            (path_join DOWNLOAD_DIR
               (uuid +:+ "." +:+ default_to "mp4" (format b)))
            uuid "" Pending.
Proof.
  unfold post_download_video. intros H.
  destruct (invalid_url (url b)) eqn:Hu; [done|].
  apply invalid_url_false in Hu as (u & Hurl & Hvalid).
  rewrite Hurl in H. simpl in H.
  match type of H with
  | (if ?thrown then _ else _) = _ => destruct thrown
  end; [discriminate H|]. injection H as <- <-. eauto.
Qed.

(** What a started playlist job looks like. *)
Lemma playlist_started b uuid w0 w1 c :
  playlist b uuid w0 = (w1, Some c) ->
  let folder := path_join DOWNLOAD_DIR uuid in
  let template := path_join folder "%(playlist_index)s-%(id)s.%(ext)s" in
  ∃ u, url b = Some u ∧ isValidYouTubeUrl u = true
    ∧ fs_mkdirSync_throws folder w0 = false
    ∧ w1 = progressMap_set uuid snapshot_starting (fs_mkdirSync folder w0)
    ∧ c = Closure
            (if default_to false (audioOnly b)
             then [u; "-x"; "--audio-format"; default_to "mp4" (format b);
                   "-o"; template]
             else [u; "-f";
                   format_filter (default_to "720p" (quality b))
                     (default_to "mp4" (format b));
                   "-o"; template])
            folder uuid "" Pending.
Proof.
  unfold post_download_playlist. intros H.
  destruct (invalid_url (url b)) eqn:Hu; [done|].
  apply invalid_url_false in Hu as (u & Hurl & Hvalid).
  rewrite Hurl in H. simpl in H.
  destruct (fs_mkdirSync_throws _ w0) eqn:Hdir; [discriminate H|].
  match type of H with
  | (if ?thrown then _ else _) = _ => destruct thrown
  end; [discriminate H|]. injection H as <- <-. eauto 10.
Qed.

(** C5: a playlist request creates the directory named after the job id
    before [runYtDlp] is called and passes that directory as the path to
    check; so, as long as the directory is not removed, exit code 0
    completes the job whatever files the run produced. *)
Theorem playlist_completes_on_exit_zero b uuid w0 w1 c acts :
  playlist b uuid w0 = (w1, Some c) ->
  Forall (λ a, a ≠ Fs (removed (path_join DOWNLOAD_DIR uuid))) acts ->
  let folder := path_join DOWNLOAD_DIR uuid in
  let s := run acts (w1, c) in
  let s' := on_close (Some 0%Z) s.1 s.2 in
  folder ∈ disk w1 ∧ outputPath c = folder ∧ id c = uuid
  ∧ progressMap_get uuid s'.1 = Some snapshot_completed
  ∧ settled s'.2 = Resolved.
Proof.
  intros H Hacts. cbv zeta.
  apply playlist_started in H as (u & _ & _ & Hdir & -> & ->).
  set (folder := path_join DOWNLOAD_DIR uuid) in *.
  set (s := run acts _).
  assert (Hc : s.2.(outputPath) = folder ∧ s.2.(id) = uuid
               ∧ s.2.(settled) = Pending).
  { unfold s. by rewrite run_closure. }
  destruct Hc as (Hout & Hid & Hp).
  assert (Hin : folder ∈ disk s.1).
  { apply run_disk_keeps; [|done]. exact (mkdir_creates folder w0 Hdir). }
  split_and!; [exact (mkdir_creates folder w0 Hdir) | done | done | |].
  - unfold on_close, fs_existsSync. rewrite Hout, Hid.
    rewrite !bool_decide_eq_true_2 by done. simpl.
    unfold progressMap_get. simpl. by rewrite lookup_insert_eq.
  - unfold on_close, fs_existsSync. rewrite Hout, Hp.
    by rewrite !bool_decide_eq_true_2 by done.
Qed.

(** C6: with quality [N ++ "p"] and format [F] the single-video arguments
    carry [-f bestvideo[height<=N]+bestaudio/best[ext=F]] right after the
    URL and contain [--no-playlist], whatever the URL. *)
Theorem video_format_filter b uuid w0 w1 c (N F : string) :
  video b uuid w0 = (w1, Some c) ->
  Forall (λ ch, isDigit ch = true) (list_ascii_of_string N) ->
  quality b = Some (N +:+ "p") ->
  format b = Some F ->
  ∃ u rest,
    url b = Some u
    ∧ args c
      = u :: "-f"
          :: ("bestvideo[height<=" +:+ N +:+ "]+bestaudio/best[ext="
                +:+ F +:+ "]")
          :: rest
    ∧ "--no-playlist" ∈ rest.
Proof.
  intros H HN Hq Hf. apply video_started in H as (u & Hu & _ & _ & ->).
  rewrite Hq, Hf. simpl. unfold format_filter.
  rewrite replace_p_digits by done.
  eexists u, _. split_and!; [done..|]. set_solver.
Qed.

(** C7: the single-video arguments end with [--download-sections] and
    [*start-end] exactly when a start or an end time is supplied, with [0]
    for a missing start and [inf] for a missing end; otherwise the six
    base arguments stand alone. *)
Theorem video_trim_section b uuid w0 w1 c :
  video b uuid w0 = (w1, Some c) ->
  ∃ u,
    url b = Some u
    ∧ let base :=
        [u; "-f";
         format_filter (default_to "720p" (quality b))
           (default_to "mp4" (format b));
         "-o"; outputPath c; "--no-playlist"] in
      match supplied (startTime b), supplied (endTime b) with
      | None, None => args c = base
      | from, to =>
          args c
          = base ++ ["--download-sections";
                     "*" +:+ default "0" from +:+ "-" +:+ default "inf" to]
      end.
Proof.
  intros H. apply video_started in H as (u & Hu & _ & _ & ->). simpl.
  exists u. split; [done|]. unfold trim_args.
  destruct (startTime b) as [[|x s]|], (endTime b) as [[|y e]|]; done.
Qed.

Lemma format_filter_head q f :
  ∃ rest, format_filter q f = String "b" rest.
Proof. unfold format_filter. by eexists. Qed.

(** C8: an audio-only playlist is planned as [-x --audio-format F] with
    no [-f] option followed by a resolution filter anywhere; a video
    playlist carries, after [-f], the filter a single-video request with
    the same quality and format gets; both write to the template
    [%(playlist_index)s-%(id)s.%(ext)s] inside the directory named after
    the job id. *)
Theorem playlist_arguments b uuid w0 w1 c :
  playlist b uuid w0 = (w1, Some c) ->
  let folder := path_join DOWNLOAD_DIR uuid in
  let template := path_join folder "%(playlist_index)s-%(id)s.%(ext)s" in
  ∃ u,
    url b = Some u
    ∧ outputPath c = folder
    ∧ if default_to false (audioOnly b)
      then
        args c = [u; "-x"; "--audio-format"; default_to "mp4" (format b);
                  "-o"; template]
        ∧ ∀ i q f,
            ¬ (args c !! i = Some "-f"
               ∧ args c !! S i = Some (format_filter q f))
      else
        args c = [u; "-f";
                  format_filter (default_to "720p" (quality b))
                    (default_to "mp4" (format b));
                  "-o"; template]
        ∧ ∀ b' uuid' w0' w1' c',
            quality b' = quality b -> format b' = format b ->
            video b' uuid' w0' = (w1', Some c') ->
            args c' !! 1 = Some "-f" ∧ args c' !! 2 = args c !! 2.
Proof.
  intros H. cbv zeta. apply playlist_started in H as (u & Hu & _ & _ & _ & ->).
  exists u. split_and!; [done..|]. simpl.
  destruct (default_to false (audioOnly b)).
  - split; [done|]. intros i q f [H1 H2].
    destruct (format_filter_head q f) as [rest Hf]. rewrite Hf in H2.
    destruct i as [|[|[|[|[|[|i]]]]]]; simpl in *; congruence.
  - split; [done|]. intros b' uuid' w0' w1' c' Hq Hf H.
    apply video_started in H as (u' & _ & _ & _ & ->). simpl.
    by rewrite Hq, Hf.
Qed.
End RouteFacts.

(** ** The server *)

Lemma latest_snoc k k' p h :
  latest k (h ++ [(k', p)])
  = if decide (k' = k) then Some p else latest k h.
Proof.
  unfold latest. rewrite filter_app, filter_cons, filter_nil. simpl.
  destruct (decide (k' = k)); [by rewrite last_snoc | by rewrite app_nil_r].
Qed.

Lemma world_inv_set ids w k p :
  world_inv ids w -> k ∈ ids -> percent_by_status p ->
  world_inv ids (progressMap_set k p w).
Proof.
  intros [Hl Hk Hp] Hin Hok. split; simpl.
  - intros k'. rewrite latest_snoc, lookup_insert.
    destruct (decide (k = k')); [done | apply Hl].
  - intros e [He|He]%elem_of_app; [by apply Hk|].
    apply list_elem_of_singleton in He as ->. done.
  - apply Forall_app. split; [done | by constructor].
Qed.

Lemma world_inv_disk ids w d no :
  world_inv ids w -> world_inv ids (World (progressMap w) (history w) d no).
Proof. intros [Hl Hk Hp]. by split. Qed.

Lemma world_inv_mono ids ids' w :
  ids ⊆ ids' -> world_inv ids w -> world_inv ids' w.
Proof. intros Hsub [Hl Hk Hp]. split; [done | | done]. naive_solver. Qed.

Lemma handle_inv ids e w c :
  world_inv ids w -> id c ∈ ids ->
  world_inv ids (handle e w c).1 ∧ id (handle e w c).2 = id c.
Proof.
  intros Hw Hin. destruct e as [data|data|message|code]; simpl.
  - unfold on_stdout. destruct (parse_progress data) as [p|] eqn:Hp; [|done].
    split; [|done]. apply world_inv_set; [done..|].
    apply parse_progress_Some in Hp as (q & speed & eta & -> & Hq).
    by exists q.
  - done.
  - split; [|done]. by apply world_inv_set.
  - unfold on_close. destruct (_ && _); simpl; (split; [|done]);
      by apply world_inv_set.
Qed.

(** Jobs do not interfere: a listener of a job with another id leaves the
    entry and the writes of [jid] alone. *)
Lemma handle_other_job e w c jid :
  id c ≠ jid ->
  progressMap (handle e w c).1 !! jid = progressMap w !! jid
  ∧ statuses jid (handle e w c).1 = statuses jid w.
Proof.
  intros Hne.
  assert (Hset : ∀ p,
    progressMap (progressMap_set (id c) p w) !! jid = progressMap w !! jid
    ∧ statuses jid (progressMap_set (id c) p w) = statuses jid w).
  { intros p. split; simpl; [by rewrite lookup_insert_ne|].
    unfold statuses. simpl. rewrite filter_app, filter_cons, filter_nil.
    simpl. rewrite decide_False by done. by rewrite app_nil_r. }
  destruct e as [data|data|message|code]; simpl.
  - unfold on_stdout. destruct (parse_progress data); [apply Hset | done].
  - done.
  - apply Hset.
  - unfold on_close. destruct (_ && _); apply Hset.
Qed.

Lemma runYtDlp_inv ids argv out jid w :
  world_inv ids w -> jid ∈ ids ->
  world_inv ids (runYtDlp argv out jid w).1
  ∧ id (runYtDlp argv out jid w).2 = jid
  ∧ latest jid (history (runYtDlp argv out jid w).1) = Some snapshot_starting.
Proof.
  intros Hw Hin. split_and!; [by apply world_inv_set | done |].
  simpl. rewrite latest_snoc. by rewrite decide_True.
Qed.

Section ServerFacts.
Variable path_join : string -> string -> string.
Variable DOWNLOAD_DIR : string.

Abbreviation serve' := (serve path_join DOWNLOAD_DIR).
Abbreviation serve_all' := (serve_all path_join DOWNLOAD_DIR).

Lemma latest_grows k k' p h :
  is_Some (latest k h) -> is_Some (latest k (h ++ [(k', p)])).
Proof. intros H. rewrite latest_snoc. by destruct (decide _). Qed.

Lemma handle_history e w c :
  history (handle e w c).1 = history w
  ∨ ∃ p, history (handle e w c).1 = history w ++ [(id c, p)].
Proof.
  destruct e as [data|data|message|code]; simpl.
  - unfold on_stdout. destruct (parse_progress data); simpl; eauto.
  - by left.
  - eauto.
  - unfold on_close. destruct (_ && _); simpl; eauto.
Qed.

Lemma launch_inv ids s w c uuid :
  server_inv ids s ->
  (∃ w0 argv out, world_inv ids w0 ∧ history w0 = history (shared s)
                  ∧ (w, c) = runYtDlp argv out uuid w0) ->
  server_inv (ids ++ [uuid]) (launched s (w, Some c)).
Proof.
  intros [Hw Hj Hwr] (w0 & argv & out & Hw0 & Hh & Hrun).
  assert (Hsub : ids ⊆ ids ++ [uuid]) by set_solver.
  assert (Hin : uuid ∈ ids ++ [uuid]) by set_solver.
  destruct (runYtDlp_inv (ids ++ [uuid]) argv out uuid w0)
    as (Hw1 & Hid & Hl); [by eapply world_inv_mono | done |].
  rewrite <- Hrun in Hw1, Hid, Hl. simpl in *.
  split; simpl.
  - done.
  - apply Forall_app. split.
    + eapply Forall_impl; [done|]. intros x Hx. apply elem_of_app. by left.
    + constructor; [by rewrite Hid | done].
  - intros k [Hk|Hk]%elem_of_app.
    + injection Hrun as -> _. simpl. rewrite Hh. apply latest_grows.
      by apply Hwr.
    + apply list_elem_of_singleton in Hk as ->. by rewrite Hl.
Qed.

Lemma server_inv_disk ids s d no :
  server_inv ids s ->
  server_inv ids
    (Server (World (progressMap (shared s)) (history (shared s)) d no)
       (jobs s)).
Proof. intros [Hw Hj Hwr]. split; [by apply world_inv_disk | done | done]. Qed.

Lemma serve_inv ids s i :
  server_inv ids s ->
  ∃ ids', server_inv (ids ++ ids') (serve' s i)
          ∧ ∀ k, k ∈ ids' -> k ∈ allocated i.
Proof.
  intros Hs. pose proof Hs as [Hw Hj Hwr].
  remember (allocated i) as al eqn:Hal.
  assert (Hsame : ∀ s', server_inv ids s' ->
            ∃ ids', server_inv (ids ++ ids') s' ∧ ∀ k, k ∈ ids' -> k ∈ al).
  { intros s' Hs'. exists []. rewrite app_nil_r. split; [done|].
    by intros k Hk%elem_of_nil. }
  assert (Hnew : ∀ uuid w c,
            al = [uuid] ->
            server_inv (ids ++ [uuid]) (launched s (w, Some c)) ->
            ∃ ids', server_inv (ids ++ ids') (launched s (w, Some c))
                    ∧ ∀ k, k ∈ ids' -> k ∈ al).
  { intros uuid w c -> Hl. by exists [uuid]. }
  destruct i as [b uuid|b uuid|b uuid|n e|ch]; simpl in *.
  - unfold post_download_video.
    destruct (invalid_url (url b)) eqn:Hu; [apply Hsame; by destruct s|].
    destruct (spawn_throws _); [apply Hsame; by destruct s|].
    apply (Hnew uuid); [done|].
    apply launch_inv; [done|]. by eexists (shared s), _, _.
  - unfold post_download_audio.
    destruct (invalid_url (url b)) eqn:Hu; [apply Hsame; by destruct s|].
    destruct (spawn_throws _); [apply Hsame; by destruct s|].
    apply (Hnew uuid); [done|].
    apply launch_inv; [done|]. by eexists (shared s), _, _.
  - unfold post_download_playlist.
    destruct (invalid_url (url b)) eqn:Hu; [apply Hsame; by destruct s|].
    destruct (fs_mkdirSync_throws _ _);
      [apply Hsame; by apply server_inv_disk|].
    destruct (spawn_throws _).
    + apply Hsame. by apply server_inv_disk.
    + apply (Hnew uuid); [done|].
      apply launch_inv; [done|].
      eexists (fs_mkdirSync _ (shared s)), _, _.
      split_and!; [by apply world_inv_disk | done | done].
  - apply Hsame. destruct (jobs s !! n) as [c|] eqn:Hc; [|done].
    assert (Hin : id c ∈ ids).
    { by apply (Forall_lookup_1 _ _ _ _ Hj Hc). }
    destruct (handle_inv ids e (shared s) c) as [Hw' Hid]; [done..|].
    split; simpl.
    + done.
    + apply Forall_insert; [done | by rewrite Hid].
    + intros k Hk. destruct (handle_history e (shared s) c) as [->|[p ->]].
      * by apply Hwr.
      * apply latest_grows. by apply Hwr.
  - apply Hsame. destruct ch; by apply server_inv_disk.
Qed.

Lemma serve_all_inv inputs : ∀ ids s,
  server_inv ids s ->
  ∃ ids', server_inv (ids ++ ids') (serve_all' inputs s)
          ∧ ∀ k, k ∈ ids' -> k ∈ inputs ≫= allocated.
Proof.
  induction inputs as [|i inputs IH]; intros ids s Hs; simpl.
  - exists []. rewrite app_nil_r. split; [done|]. by intros k Hk%elem_of_nil.
  - destruct (serve_inv ids s i Hs) as (ids1 & Hs1 & H1).
    destruct (IH _ _ Hs1) as (ids2 & Hs2 & H2).
    exists (ids1 ++ ids2). rewrite app_assoc. split; [done|].
    intros k [Hk|Hk]%elem_of_app; apply elem_of_app; auto.
Qed.

Lemma boot_inv files : server_inv [] (boot files).
Proof.
  split; simpl; [|done|set_solver].
  split; simpl; [|set_solver|done]. intros k. by rewrite lookup_empty.
Qed.

(** The ids of the runs started so far are among the allocated ones, and
    the invariant holds for them. *)
Lemma served_inv inputs files :
  ∃ ids, server_inv ids (serve_all' inputs (boot files))
         ∧ ∀ k, k ∈ ids -> k ∈ inputs ≫= allocated.
Proof. apply (serve_all_inv inputs [] _ (boot_inv files)). Qed.
End ServerFacts.

Section Served.
Variable path_join : string -> string -> string.
Variable DOWNLOAD_DIR : string.

(** C4 (amended): every snapshot ever stored carries percent 0 when
    starting, a non-negative number when downloading, 100 when completed,
    and no percent when in error. *)
Theorem stored_percent_by_status inputs files :
  Forall (λ e, percent_by_status e.2)
    (history (shared (serve_all path_join DOWNLOAD_DIR inputs (boot files)))).
Proof.
  destruct (served_inv path_join DOWNLOAD_DIR inputs files) as (ids & Hs & _).
  apply (inv_percent ids), inv_world, Hs.
Qed.

(** C10 (amended): an id never written to the store is unknown to the
    progress query; that covers every id no request was allocated, and an
    id allocated for a request whose [spawn] threw.  An id that was written
    is answered with the latest snapshot stored for it, and the id of every
    run that was started has been written. *)
Theorem progress_query inputs files jid :
  let s := serve_all path_join DOWNLOAD_DIR inputs (boot files) in
  let w := shared s in
  (jid ∉ inputs ≫= allocated ->
   get_download_progress jid w = NotFound "Unknown download id")
  ∧ ((∀ p, (jid, p) ∉ history w) ->
     get_download_progress jid w = NotFound "Unknown download id")
  ∧ (∀ p, latest jid (history w) = Some p ->
          get_download_progress jid w = Ok p)
  ∧ (∀ c, c ∈ jobs s ->
          ∃ p, latest (id c) (history w) = Some p
               ∧ get_download_progress (id c) w = Ok p).
Proof.
  intros s w.
  destruct (served_inv path_join DOWNLOAD_DIR inputs files)
    as (ids & [[Hl Hk _] Hj Hwr] & Hids).
  fold s in Hj. fold s w in Hl, Hk, Hwr.
  assert (Hnone : (∀ p, (jid, p) ∉ history w) ->
                  get_download_progress jid w
                  = NotFound "Unknown download id").
  { intros Hno. unfold get_download_progress, progressMap_get.
    rewrite Hl. unfold latest.
    destruct (last _) as [[k p]|] eqn:Hlast; [|done].
    apply last_Some_elem_of, list_elem_of_filter in Hlast as [Hkey Hin].
    simpl in Hkey. subst k. by destruct (Hno p). }
  split_and!.
  - intros Hnot. apply Hnone. intros p Hin. apply Hnot, Hids.
    by apply (Hk (jid, p)).
  - done.
  - intros p Hp. unfold get_download_progress, progressMap_get.
    by rewrite Hl, Hp.
  - intros c Hc. apply (proj1 (Forall_forall _ _) Hj) in Hc.
    destruct (Hwr _ Hc) as [p Hp]. exists p. split; [done|].
    unfold get_download_progress, progressMap_get. by rewrite Hl, Hp.
Qed.
End Served.

(** C4 as stated fails on a job whose child prints 250.0%: the starting
    snapshot already carries a percent, and the downloading snapshot carries
    the 250 that was printed. *)
Lemma stored_percent_counterexample :
  let h := history (shared (serve_all join_slash "/srv/downloads"
             [POST_video sample_video "job-1";
              child_event 0
                (stdout_data
                   "[download]  250.0% of 10.00MiB at 1.23MiB/s ETA 00:10")]
             (boot ∅))) in
  ¬ Forall (λ e, percent_as_specified e.2) h
  ∧ ¬ Forall (λ e, percent_only_when_active e.2) h
  ∧ ¬ Forall (λ e, percent_in_range e.2) h.
Proof.
  intros h.
  assert (Hh : h = [("job-1", snapshot_starting);
                    ("job-1",
                     snapshot_downloading (Fin 250) "1.23MiB/s" "00:10")])
    by (vm_compute; reflexivity).
  rewrite Hh. clear Hh h.
  assert (Hactive : ¬ Forall (λ e : string * snapshot,
                                percent_only_when_active e.2)
                      [("job-1", snapshot_starting);
                       ("job-1",
                        snapshot_downloading (Fin 250) "1.23MiB/s" "00:10")]).
  { intros H. apply Forall_cons_1 in H as [H _].
    destruct H as [H|H]; [by eexists | discriminate H | discriminate H]. }
  assert (Hrange : ¬ Forall (λ e : string * snapshot, percent_in_range e.2)
                     [("job-1", snapshot_starting);
                      ("job-1",
                       snapshot_downloading (Fin 250) "1.23MiB/s" "00:10")]).
  { intros H. apply Forall_cons_1 in H as [_ H].
    apply Forall_cons_1 in H as [H _].
    destruct (H (Fin 250) eq_refl) as (q & [= <-] & _ & Hle).
    by vm_compute in Hle. }
  split_and!; [|done..].
  intros H. apply Hactive. eapply Forall_impl; [exact H|].
  by intros e [_ He].
Qed.

Example starting_has_percent :
  history (shared (serve_all join_slash "/srv/downloads"
     [POST_video sample_video "job-1"] (boot ∅)))
  = [("job-1", Snapshot starting (Some (Fin 0)) (Some Null) (Some Null) None)].
Proof. reflexivity. Qed.

Example percent_above_100 :
  progressMap_get "job-1"
    (shared (serve_all join_slash "/srv/downloads"
       [POST_video sample_video "job-1";
        child_event 0
          (stdout_data
             "[download]  250.0% of 10.00MiB at 1.23MiB/s ETA 00:10")]
       (boot ∅)))
  = Some (Snapshot downloading (Some (Fin 250)) (Some (Val "1.23MiB/s"))
            (Some (Val "00:10")) None).
Proof. vm_compute. reflexivity. Qed.

(** C10 as stated fails on a request whose URL holds NUL: its id is
    allocated, [spawn] throws before the first write, and the query does
    not know the id. *)
Lemma progress_query_counterexample :
  let inputs := [POST_video sample_nul "job-1"] in
  let w := shared (serve_all join_slash "/srv/downloads" inputs (boot ∅)) in
  "job-1" ∈ inputs ≫= allocated
  ∧ get_download_progress "job-1" w = NotFound "Unknown download id"
  ∧ ¬ allocated_are_answered (inputs ≫= allocated) w.
Proof.
  intros inputs w.
  assert (Hin : "job-1" ∈ inputs ≫= allocated).
  { apply list_elem_of_In. vm_compute. tauto. }
  assert (Hq : get_download_progress "job-1" w
               = NotFound "Unknown download id") by (vm_compute; reflexivity).
  split_and!; [done | done |].
  intros H. destruct (H "job-1" Hin) as [p Hp]. rewrite Hq in Hp.
  discriminate Hp.
Qed.

Lemma progress_query_witness :
  let s := serve_all join_slash "/srv/downloads"
             [POST_video sample_video "job-1"] (boot ∅) in
  let w := shared s in
  get_download_progress "job-2" w = NotFound "Unknown download id"
  ∧ get_download_progress "" w = NotFound "Unknown download id"
  ∧ get_download_progress "job-1" w = Ok snapshot_starting
  ∧ ∃ p, latest "job-1" (history w) = Some p
         ∧ get_download_progress "job-1" w = Ok p.
Proof.
  intros s w.
  destruct (progress_query join_slash "/srv/downloads"
              [POST_video sample_video "job-1"] ∅ "job-2")
    as (Hfree & _ & _ & _).
  destruct (progress_query join_slash "/srv/downloads"
              [POST_video sample_video "job-1"] ∅ "")
    as (_ & Hnone & _ & _).
  destruct (progress_query join_slash "/srv/downloads"
              [POST_video sample_video "job-1"] ∅ "job-1")
    as (_ & _ & Hlatest & Hjobs).
  split_and!.
  - apply Hfree. intros Hin. apply list_elem_of_singleton in Hin.
    discriminate Hin.
  - apply Hnone. intros p Hin. apply list_elem_of_singleton in Hin.
    discriminate Hin.
  - apply Hlatest. reflexivity.
  - apply (Hjobs
             (Closure
                ["https://www.youtube.com/watch?v=dQw4w9WgXcQ&list=PL1"; "-f";
                 "bestvideo[height<=1080]+bestaudio/best[ext=webm]"; "-o";
                 "/srv/downloads/job-1.webm"; "--no-playlist";
                 "--download-sections"; "*10-inf"]
                "/srv/downloads/job-1.webm" "job-1" "" Pending)).
    apply list_elem_of_singleton. reflexivity.
Defined.

(** C2: the sample line parses to status downloading, percent 12.3, speed
    "1.23MiB/s" and eta "00:10"; a line without [%] gives no update; and a
    chunk that gives no update leaves the world and the closure as they
    were. *)
Theorem parse_progress_line :
  parse_progress "[download]  12.3% of 10.00MiB at 1.23MiB/s ETA 00:10"
  = Some (Snapshot downloading (Some (Fin 12.3%Q)) (Some (Val "1.23MiB/s"))
            (Some (Val "00:10")) None)
  ∧ (∀ line, ¬ In "%"%char (list_ascii_of_string line) ->
             parse_progress line = None)
  ∧ (∀ line w c, parse_progress line = None -> on_stdout line w c = (w, c)).
Proof.
  split_and!.
  - vm_compute. reflexivity.
  - apply parse_progress_needs_percent.
  - intros line w c H. unfold on_stdout. by rewrite H.
Qed.

Lemma parse_progress_line_witness :
  parse_progress "[Merger] Merging formats into a.mkv" = None
  ∧ on_stdout "WARNING: unable to extract uploader id" (empty_world ∅)
      (Closure [] "out" "job-1" "" Pending)
    = (empty_world ∅, Closure [] "out" "job-1" "" Pending).
Proof.
  destruct parse_progress_line as (_ & Hpercent & Hignored). split.
  - apply Hpercent. vm_compute. intuition discriminate.
  - apply Hignored. vm_compute. reflexivity.
Defined.

Lemma playlist_completes_on_exit_zero_witness :
  ∃ w1 c,
    post_download_playlist join_slash "/srv/downloads"
      (sample_playlist false) "job-1" (empty_world ∅) = (w1, Some c)
    ∧ "/srv/downloads/job-1" ∈ disk w1
    ∧ outputPath c = "/srv/downloads/job-1"
    ∧ progressMap_get "job-1"
        (on_close (Some 0%Z) (run [Err "ERROR: empty playlist"] (w1, c)).1
           (run [Err "ERROR: empty playlist"] (w1, c)).2).1
      = Some snapshot_completed.
Proof.
  eexists _, _. split; [reflexivity|].
  destruct (playlist_completes_on_exit_zero join_slash "/srv/downloads"
              (sample_playlist false) "job-1" (empty_world ∅) _ _
              [Err "ERROR: empty playlist"] eq_refl)
    as (H1 & H2 & _ & H4 & _).
  - repeat constructor. discriminate.
  - split_and!; [exact H1 | exact H2 | exact H4].
Defined.

Lemma video_format_filter_witness :
  ∃ w1 c rest,
    post_download_video join_slash "/srv/downloads" sample_video "job-1"
      (empty_world ∅) = (w1, Some c)
    ∧ args c
      = "https://www.youtube.com/watch?v=dQw4w9WgXcQ&list=PL1" :: "-f"
          :: "bestvideo[height<=1080]+bestaudio/best[ext=webm]" :: rest
    ∧ "--no-playlist" ∈ rest.
Proof.
  destruct (video_format_filter join_slash "/srv/downloads" sample_video
              "job-1" (empty_world ∅) _ _ "1080" "webm" eq_refl)
    as (u & rest & Hu & Hargs & Hrest).
  - repeat constructor.
  - reflexivity.
  - reflexivity.
  - injection Hu as <-. eexists _, _, rest.
    split_and!; [reflexivity | exact Hargs | exact Hrest].
Defined.

Lemma video_trim_section_witness :
  ∃ w1 c,
    post_download_video join_slash "/srv/downloads" sample_video "job-1"
      (empty_world ∅) = (w1, Some c)
    ∧ args c
      = ["https://www.youtube.com/watch?v=dQw4w9WgXcQ&list=PL1"; "-f";
         "bestvideo[height<=1080]+bestaudio/best[ext=webm]"; "-o";
         "/srv/downloads/job-1.webm"; "--no-playlist";
         "--download-sections"; "*10-inf"].
Proof.
  destruct (video_trim_section join_slash "/srv/downloads" sample_video
              "job-1" (empty_world ∅) _ _ eq_refl) as (u & Hu & Hargs).
  injection Hu as <-. eexists _, _. split; [reflexivity | exact Hargs].
Defined.

Lemma playlist_arguments_witness :
  (∃ w1 c,
     post_download_playlist join_slash "/srv/downloads"
       (sample_playlist true) "job-1" (empty_world ∅) = (w1, Some c)
     ∧ args c
       = ["https://www.youtube.com/playlist?list=PL1"; "-x";
          "--audio-format"; "mp4"; "-o";
          "/srv/downloads/job-1/%(playlist_index)s-%(id)s.%(ext)s"])
  ∧ (∃ w1 c w1' c',
       post_download_playlist join_slash "/srv/downloads"
         (sample_playlist false) "job-2" (empty_world ∅) = (w1, Some c)
       ∧ post_download_video join_slash "/srv/downloads"
           (sample_playlist false) "job-3" (empty_world ∅) = (w1', Some c')
       ∧ args c' !! 1 = Some "-f"
       ∧ args c' !! 2 = args c !! 2).
Proof.
  split.
  - destruct (playlist_arguments join_slash "/srv/downloads"
                (sample_playlist true) "job-1" (empty_world ∅) _ _ eq_refl)
      as (u & Hu & _ & Hargs & _).
    injection Hu as <-. eexists _, _. split; [reflexivity | exact Hargs].
  - destruct (playlist_arguments join_slash "/srv/downloads"
                (sample_playlist false) "job-2" (empty_world ∅) _ _ eq_refl)
      as (u & _ & _ & _ & Hsame).
    eexists _, _, _, _. split; [reflexivity|]. split; [reflexivity|].
    exact (Hsame (sample_playlist false) "job-3" (empty_world ∅) _ _
             eq_refl eq_refl eq_refl).
Defined.

(** C9: when yt-dlp cannot be spawned, Node emits ['error'] and then
    ['close'] with code -2; the store then holds the message of the
    ['close'] listener while the promise was rejected with the launch
    error, so the stored error and the surfaced failure differ. *)
Theorem launch_failure_overwritten :
  let s := finish (LaunchFailed "spawn yt-dlp ENOENT" (Some 2%positive))
             (runYtDlp ["https://youtu.be/dQw4w9WgXcQ"]
                "/srv/downloads/job-1.mp4" "job-1" (empty_world ∅)) in
  ∃ stored surfaced,
    progressMap_get "job-1" s.1
      = Some (Snapshot error None None None (Some stored))
    ∧ settled s.2 = Rejected surfaced
    ∧ stored = "yt-dlp exited with code -2"
    ∧ surfaced = "spawn yt-dlp ENOENT"
    ∧ stored ≠ surfaced.
Proof.
  eexists _, _. split_and!; [reflexivity.. | discriminate].
Qed.

(** * Further properties *)

(** ** [safeName] *)

Lemma replace_runs_length s : ∀ b,
  (length (replace_runs b s) ≤ length s)%nat.
Proof.
  induction s as [|c s IH]; intros b; simpl; [done|].
  pose proof (IH true). pose proof (IH false).
  destruct (isForbidden c), b; simpl; lia.
Qed.

Lemma replace_runs_clean s : ∀ b,
  Forall (λ c, isForbidden c = false) (replace_runs b s).
Proof.
  induction s as [|c s IH]; intros b; simpl; [done|].
  destruct (isForbidden c) eqn:Hc; [destruct b|]; try done;
    by constructor.
Qed.

Lemma replace_runs_id s : ∀ b,
  Forall (λ c, isForbidden c = false) s -> replace_runs b s = s.
Proof.
  induction s as [|c s IH]; intros b H; simpl; [done|].
  inversion H as [|? ? Hc Hs]; subst. rewrite Hc. by rewrite IH.
Qed.

Lemma string_chars_length (s : string) :
  length (list_ascii_of_string s) = String.length s.
Proof. induction s as [|c s IH]; simpl; [done | by rewrite IH]. Qed.

Lemma safeName_chars (name : string) :
  list_ascii_of_string (safeName name)
  = take 140 (replace_runs false (list_ascii_of_string name)).
Proof. apply list_ascii_of_string_of_list_ascii. Qed.

(** X1: a safe name has at most 140 characters, is never longer than the
    name it comes from, and holds none of the characters of the class. *)
Theorem safeName_safe (name : string) :
  (String.length (safeName name) ≤ 140)%nat
  ∧ (String.length (safeName name) ≤ String.length name)%nat
  ∧ Forall (λ c, isForbidden c = false) (list_ascii_of_string (safeName name)).
Proof.
  rewrite <- !string_chars_length, safeName_chars, length_take.
  pose proof (replace_runs_length (list_ascii_of_string name) false).
  split_and!; [lia | lia |]. apply Forall_take, replace_runs_clean.
Qed.

(** X2: [safeName] leaves a name as it is exactly when the name has at most
    140 characters and none of the class; so applying it twice is the same
    as applying it once. *)
Theorem safeName_fixed_points (name : string) :
  (safeName name = name
   ↔ (String.length name ≤ 140)%nat
     ∧ Forall (λ c, isForbidden c = false) (list_ascii_of_string name))
  ∧ safeName (safeName name) = safeName name.
Proof.
  assert (Hfix : ∀ n : string,
    (String.length n ≤ 140)%nat ->
    Forall (λ c, isForbidden c = false) (list_ascii_of_string n) ->
    safeName n = n).
  { intros n Hlen Hclean. unfold safeName.
    rewrite replace_runs_id by done.
    rewrite take_ge by (by rewrite string_chars_length).
    apply string_of_list_ascii_of_string. }
  assert (Hout : ∀ n : string,
    (String.length (safeName n) ≤ 140)%nat
    ∧ Forall (λ c, isForbidden c = false)
        (list_ascii_of_string (safeName n))).
  { intros n. rewrite <- string_chars_length, safeName_chars, length_take.
    split; [lia|]. apply Forall_take, replace_runs_clean. }
  split.
  - split.
    + intros Heq. pose proof (Hout name) as [H1 H2].
      by rewrite Heq in H1, H2.
    + intros [? ?]. by apply Hfix.
  - pose proof (Hout name) as [H1 H2]. by apply Hfix.
Qed.

Lemma safeName_fixed_points_witness : safeName "clip-01.mp4" = "clip-01.mp4".
Proof.
  apply (proj2 (proj1 (safeName_fixed_points "clip-01.mp4"))).
  split; [vm_compute; lia | repeat constructor].
Defined.

Example safeName_samples :
  safeName "a/b:c" = "a_b_c" ∧ safeName "what?<>|is*this" = "what_is_this"
  ∧ safeName "" = "" ∧ safeName ".." = "..".
Proof. repeat split. Qed.


(** ** [isValidYouTubeUrl] *)

Lemma chars_append (a b : string) :
  list_ascii_of_string (a +:+ b)
  = list_ascii_of_string a ++ list_ascii_of_string b.
Proof.
  induction a as [|c a IH]; [done|]. rewrite append_cons. simpl.
  by rewrite IH.
Qed.

Lemma string_of_chars_app (a b : chars) :
  string_of_list_ascii (a ++ b)
  = string_of_list_ascii a +:+ string_of_list_ascii b.
Proof.
  induction a as [|c a IH]; [done|]. simpl. rewrite append_cons.
  by rewrite IH.
Qed.

Ltac inv_alts :=
  unfold Opt in *;
  repeat match goal with
  | H : derives Empty _ _ _ |- _ => inversion H; subst; clear H
  | H : derives (Char _) _ _ _ |- _ => inversion H; subst; clear H
  | H : derives (Cat _ _) _ _ _ |- _ => inversion H; subst; clear H
  | H : derives (Alt _ _) _ _ _ |- _ => inversion H; subst; clear H
  | H : derives (Group _ _) _ _ _ |- _ => inversion H; subst; clear H
  end.

Lemma youtube_re_words w caps m :
  derives youtube_re w caps m ->
  string_of_list_ascii w ∈ youtube_prefixes.
Proof.
  intros H. unfold youtube_re in H. cbn in H. inv_alts; vm_compute;
    set_solver.
Qed.

Lemma youtube_prefix_accepted p rest :
  p ∈ youtube_prefixes -> isValidYouTubeUrl (p +:+ rest) = true.
Proof.
  intros Hp. unfold isValidYouTubeUrl. rewrite chars_append.
  vm_compute in Hp.
  repeat (apply elem_of_cons in Hp as [->|Hp]; [by vm_compute|]).
  by apply elem_of_nil in Hp.
Qed.

(** X3: [isValidYouTubeUrl] accepts exactly the texts that begin with an
    optional [http://] or [https://], an optional [www.], then
    [youtube.com/] or [youtu.be/]; what follows is not looked at. *)
Theorem isValidYouTubeUrl_prefixes (u : string) :
  isValidYouTubeUrl u = true
  ↔ ∃ p rest, p ∈ youtube_prefixes ∧ u = p +:+ rest.
Proof.
  split.
  - unfold isValidYouTubeUrl.
    destruct (match_here youtube_re _) as [m|] eqn:Hm; [|done]. intros _.
    apply match_here_sound in Hm as (w & s' & Hu & Hd).
    exists (string_of_list_ascii w), (string_of_list_ascii s'). split.
    + by eapply youtube_re_words.
    + rewrite <- string_of_chars_app, <- Hu.
      by rewrite string_of_list_ascii_of_string.
  - intros (p & rest & Hp & ->). by apply youtube_prefix_accepted.
Qed.

Lemma isValidYouTubeUrl_prefixes_witness :
  isValidYouTubeUrl "youtu.be/dQw4w9WgXcQ" = true.
Proof.
  apply (isValidYouTubeUrl_prefixes "youtu.be/dQw4w9WgXcQ").
  exists "youtu.be/", "dQw4w9WgXcQ". split; [|reflexivity].
  apply list_elem_of_In. vm_compute. tauto.
Defined.

(** ** More on the progress line *)

Lemma progress_re_groups w caps m :
  derives progress_re w caps m ->
  ∃ before between rate eta,
    w = list_ascii_of_string "[download]" ++ before
          ++ list_ascii_of_string "ETA" ++ between ++ eta
    ∧ In "."%char before ∧ In "%"%char before
    ∧ m !! 2 = Some (rate ++ list_ascii_of_string "/s")
    ∧ m !! 3 = Some eta
    ∧ Forall (λ c, isWord c = true ∨ c = "."%char) rate
    ∧ (∃ d rate', rate = d :: rate' ∧ isDigit d = true)
    ∧ Forall (λ c, isDigitOrColon c = true) eta
    ∧ eta ≠ [].
Proof.
  intros H. unfold progress_re in H. cbn in H. inv_derives.
  match goal with
  | |- context [<[3 := ?eta]>
                  (<[2 := ?e1 ++ _ ++ ?e2 ++ ?unit ++ _]> _)] =>
      match goal with
      | |- context [?sp ++ ?g1 ++ ["%"%char] ++ ?mid ++ [?c1]
                      ++ ?g2 ++ [?c2] ++ ?eta_lit ++ [?c3] ++ eta ++ []] =>
          exists (sp ++ g1 ++ ["%"%char] ++ mid ++ [c1] ++ g2 ++ [c2]),
            [c3], (e1 ++ ["."%char] ++ e2 ++ unit), eta
      end
  end.
  split_and!.
  - rewrite !app_nil_r. by repeat (progress (simpl; rewrite <- ?app_assoc)).
  - rewrite !in_app_iff. right. left. right. left. by left.
  - rewrite !in_app_iff. right. right. left. by left.
  - rewrite lookup_insert_ne, lookup_insert_eq by done. f_equal.
    by repeat (progress (simpl; rewrite <- ?app_assoc)).
  - by rewrite lookup_insert_eq.
  - assert (Hdw : ∀ l, Forall (λ c, isDigit c = true) l ->
                       Forall (λ c, isWord c = true ∨ c = "."%char) l).
    { intros l Hl. eapply Forall_impl; [exact Hl|]. intros x Hx. left.
      unfold isWord. by rewrite Hx. }
    rewrite !Forall_app, Forall_singleton.
    split_and!; [by apply Hdw | by right | by apply Hdw |].
    eapply Forall_impl; [done|]. naive_solver.
  - match goal with
    | Hd : Forall _ ?e1, Hl : (1 ≤ length ?e1)%nat
      |- ∃ _ _, ?e1 ++ _ = _ ∧ _ =>
        destruct e1 as [|d e1']; [simpl in Hl; lia|];
        inversion Hd; subst; by eexists d, _
    end.
  - done.
  - intros ->. simpl in *. lia.
Qed.

(** X4: whenever a chunk yields an update, the speed is a number with a
    decimal point and a unit, ending in "/s", and the eta is a non-empty
    run of digits and colons; the percent is a non-negative number. *)
Theorem parse_progress_fields (line : string) (p : snapshot) :
  parse_progress line = Some p ->
  ∃ q d rate eta,
    p = snapshot_downloading (Fin q) (String d rate +:+ "/s") eta
    ∧ (0 <= q)%Q
    ∧ isDigit d = true
    ∧ Forall (λ c, isWord c = true ∨ c = "."%char) (list_ascii_of_string rate)
    ∧ eta ≠ ""
    ∧ Forall (λ c, isDigitOrColon c = true) (list_ascii_of_string eta).
Proof.
  unfold parse_progress. intros H.
  destruct (exec progress_re _) as [m|] eqn:Hm; [|done]. injection H as <-.
  apply exec_sound in Hm as (pre & w & post & _ & Hd).
  pose proof (progress_re_shape _ _ _ Hd)
    as (d1 & d2 & _ & _ & _ & G1 & Hd1 & Hd2 & Hn1 & Hn2).
  destruct (Number_decimal d1 d2) as (q & Hq & Hpos); [done..|].
  apply progress_re_groups in Hd
    as (_ & _ & r & eta & _ & _ & _ & G2 & G3 & Hr & (d & r' & -> & Hdig)
        & Heta & Hne).
  exists q, d, (string_of_list_ascii r'), (string_of_list_ascii eta).
  apply Forall_cons_1 in Hr as [_ Hr].
  split_and!; [|done|done| | |].
  - unfold group. rewrite G1, G2, G3. simpl. rewrite Hq.
    by rewrite string_of_chars_app.
  - by rewrite list_ascii_of_string_of_list_ascii.
  - by destruct eta.
  - by rewrite list_ascii_of_string_of_list_ascii.
Qed.

Lemma parse_progress_fields_witness :
  ∃ q d rate eta,
    snapshot_downloading (Fin 12.3%Q) "1.23MiB/s" "00:10"
    = snapshot_downloading (Fin q) (String d rate +:+ "/s") eta
    ∧ (0 <= q)%Q ∧ isDigit d = true ∧ eta ≠ "".
Proof.
  destruct (parse_progress_fields
              "[download]  12.3% of 10.00MiB at 1.23MiB/s ETA 00:10"
              (snapshot_downloading (Fin 12.3%Q) "1.23MiB/s" "00:10"))
    as (q & d & rate & eta & Hp & Hq & Hd & _ & Heta & _).
  - vm_compute. reflexivity.
  - exists q, d, rate, eta. split_and!; [exact Hp | exact Hq | exact Hd | exact Heta].
Defined.

(** X5: a chunk yields an update only if it holds the marker [[download]]
    and, after it, the word ETA, with a decimal point and a percent sign in
    between; so a line without a decimal point, such as the closing
    "100%" line, is ignored. *)
Theorem parse_progress_needs_marker (line : string) (p : snapshot) :
  parse_progress line = Some p ->
  ∃ a b c,
    line = a +:+ "[download]" +:+ b +:+ "ETA" +:+ c
    ∧ In "."%char (list_ascii_of_string b)
    ∧ In "%"%char (list_ascii_of_string b).
Proof.
  unfold parse_progress. intros H.
  destruct (exec progress_re _) as [m|] eqn:Hm; [|done]. clear H.
  apply exec_sound in Hm as (pre & w & post & Hline & Hd).
  apply progress_re_groups in Hd
    as (before & between & _ & eta & -> & Hdot & Hpct & _).
  exists (string_of_list_ascii pre), (string_of_list_ascii before),
    (string_of_list_ascii (between ++ eta ++ post)).
  rewrite list_ascii_of_string_of_list_ascii. split_and!; [|done..].
  rewrite <- (string_of_list_ascii_of_string line), Hline.
  rewrite <- !app_assoc. by do 4 rewrite string_of_chars_app.
Qed.

Lemma parse_progress_needs_marker_witness :
  ∃ a b c,
    "[download]  12.3% of 10.00MiB at 1.23MiB/s ETA 00:10"
    = a +:+ "[download]" +:+ b +:+ "ETA" +:+ c
    ∧ In "."%char (list_ascii_of_string b).
Proof.
  destruct (parse_progress_needs_marker
              "[download]  12.3% of 10.00MiB at 1.23MiB/s ETA 00:10"
              (snapshot_downloading (Fin 12.3%Q) "1.23MiB/s" "00:10"))
    as (a & b & c & Hl & Hdot & _).
  - vm_compute. reflexivity.
  - exists a, b, c. split; [exact Hl | exact Hdot].
Defined.

(** ** More on one run *)

Lemma last_cons_default {A} (x d : A) (l : list A) :
  default d (last (x :: l)) = default x (last l).
Proof. rewrite last_cons. by destruct (last l). Qed.

Lemma run_store acts : ∀ s p0,
  progressMap s.1 !! id s.2 = Some p0 ->
  progressMap (run acts s).1 !! id s.2
  = Some (default p0 (last (progress_snaps acts)))
  ∧ ∀ k, k ≠ id s.2 -> progressMap (run acts s).1 !! k = progressMap s.1 !! k.
Proof.
  induction acts as [|a acts IH]; intros [w c] p0 H0; [done|].
  change (run (a :: acts) (w, c)) with (run acts (act (w, c) a)).
  destruct a as [data|data|ch]; simpl in *.
  - unfold on_stdout. destruct (parse_progress data) as [p|].
    + destruct (IH (progressMap_set (id c) p w, c) p) as [IH1 IH2];
        [simpl; by rewrite lookup_insert_eq|].
      simpl in *. rewrite last_cons_default. split; [done|].
      intros k Hk. rewrite IH2 by done. by rewrite lookup_insert_ne.
    + by apply (IH (w, c)).
  - exact (IH (on_stderr data w c) p0 H0).
  - destruct (IH (apply_fs ch w, c) p0) as [IH1 IH2]; [by destruct ch|].
    simpl in *. split; [done|]. intros k Hk. rewrite IH2 by done.
    by destruct ch.
Qed.

(** X6: while a job runs, its entry holds the snapshot of the last progress
    line seen so far, or the starting snapshot when there was none; stderr
    output and disk changes do not touch it, and no other entry changes. *)
Theorem last_progress_wins (w0 : world) argv out jid acts :
  let w := (run acts (runYtDlp argv out jid w0)).1 in
  progressMap_get jid w
  = Some (default snapshot_starting (last (progress_snaps acts)))
  ∧ ∀ k, k ≠ jid -> progressMap_get k w = progressMap_get k w0.
Proof.
  destruct (run_store acts (runYtDlp argv out jid w0) snapshot_starting)
    as [H1 H2]; [simpl; by rewrite lookup_insert_eq|].
  split; [exact H1|]. intros k Hk. unfold progressMap_get.
  rewrite H2 by done. simpl. by rewrite lookup_insert_ne.
Qed.

Lemma last_progress_wins_witness :
  progressMap_get "job-0"
    (run [Out "[download]  12.3% of 10.00MiB at 1.23MiB/s ETA 00:10"]
       (runYtDlp [] "out" "job-1" (empty_world ∅))).1
  = progressMap_get "job-0" (empty_world ∅).
Proof.
  apply (last_progress_wins (empty_world ∅) [] "out" "job-1"
           [Out "[download]  12.3% of 10.00MiB at 1.23MiB/s ETA 00:10"]).
  discriminate.
Defined.

Lemma handle_closure e w c :
  args (handle e w c).2 = args c
  ∧ outputPath (handle e w c).2 = outputPath c
  ∧ id (handle e w c).2 = id c
  ∧ (∃ more, stderr (handle e w c).2 = stderr c +:+ more)
  ∧ (settled c ≠ Pending -> settled (handle e w c).2 = settled c).
Proof.
  destruct e as [data|data|message|code]; simpl.
  - unfold on_stdout. destruct (parse_progress data); simpl;
      split_and!; try done; exists ""; by rewrite append_nil_r.
  - split_and!; try done. by exists data.
  - split_and!; try done; [exists ""; by rewrite append_nil_r|].
    by destruct (settled c).
  - unfold on_close. destruct (_ && _); simpl;
      (split_and!; try done; [exists ""; by rewrite append_nil_r|]);
      by destruct (settled c).
Qed.

(** X7: whatever events arrive and in whatever order, a run keeps its
    arguments, output path and id, its stderr text only grows at the end,
    and once its promise is settled the outcome never changes. *)
Theorem promise_settles_once (es : list event) (w : world) (c : closure) :
  let c' := (deliver es (w, c)).2 in
  args c' = args c ∧ outputPath c' = outputPath c ∧ id c' = id c
  ∧ (∃ more, stderr c' = stderr c +:+ more)
  ∧ (settled c ≠ Pending -> settled c' = settled c).
Proof.
  revert w c. induction es as [|e es IH]; intros w c; simpl.
  - split_and!; try done. exists "". by rewrite append_nil_r.
  - destruct (handle e w c) as [w1 c1] eqn:He.
    pose proof (handle_closure e w c) as (Ha & Ho & Hi & [m1 Hs] & Hp).
    rewrite He in Ha, Ho, Hi, Hs, Hp. simpl in *.
    destruct (IH w1 c1) as (Ha' & Ho' & Hi' & [m2 Hs'] & Hp').
    unfold deliver in *. simpl in *.
    split_and!; [congruence..| |].
    + exists (m1 +:+ m2). by rewrite Hs', Hs, append_assoc.
    + intros Hset. rewrite Hp' by (by rewrite Hp). by apply Hp.
Qed.

Lemma promise_settles_once_witness :
  settled
    (deliver [child_close (Some 1%Z); stdout_data "late"; child_error "x"]
       (empty_world ∅, Closure [] "out" "job-1" "" Resolved)).2
  = Resolved.
Proof.
  apply (promise_settles_once
           [child_close (Some 1%Z); stdout_data "late"; child_error "x"]
           (empty_world ∅) (Closure [] "out" "job-1" "" Resolved)).
  discriminate.
Defined.

Lemma close_message_nonempty text code : close_message text code ≠ "".
Proof. by destruct text. Qed.

Lemma on_close_completed_iff code w c :
  snap_status <$> progressMap_get (id c) (on_close code w c).1
  = Some completed
  ↔ code = Some 0%Z ∧ outputPath c ∈ disk w.
Proof.
  unfold on_close, fs_existsSync, progressMap_get.
  rewrite <- bool_decide_and.
  destruct (decide (code = Some 0%Z ∧ outputPath c ∈ disk w)) as [Hd|Hd].
  - rewrite bool_decide_eq_true_2 by done. simpl.
    by rewrite lookup_insert_eq.
  - rewrite bool_decide_eq_false_2 by done. simpl.
    rewrite lookup_insert_eq. simpl. split; [done | by intros ?].
Qed.

(** X8: the ['close'] listener always leaves the job in a terminal status,
    and when that is [error] the stored message is never empty. *)
Theorem close_leaves_terminal (code : option Z) (w : world) (c : closure) :
  ∃ p,
    progressMap_get (id c) (on_close code w c).1 = Some p
    ∧ (snap_status p = completed
       ∨ snap_status p = error
         ∧ ∃ message, snap_error p = Some message ∧ message ≠ "").
Proof.
  unfold on_close, progressMap_get. destruct (_ && _); simpl;
    rewrite lookup_insert_eq; eexists; split; try done.
  - by left.
  - right. split; [done|]. eexists. split; [done|].
    apply close_message_nonempty.
Qed.

(** ** More on the routes *)

Lemma validate_invalid b : post_validate_url b = negb (invalid_url (url b)).
Proof.
  unfold post_validate_url, invalid_url.
  destruct (url b) as [[|ch v]|]; [done| |done]. by rewrite negb_involutive.
Qed.

Section MoreRouteFacts.
Variable path_join : string -> string -> string.
Variable DOWNLOAD_DIR : string.

Lemma audio_started b uuid w0 w1 c :
  post_download_audio path_join DOWNLOAD_DIR b uuid w0 = (w1, Some c) ->
  ∃ u, url b = Some u ∧ isValidYouTubeUrl u = true
    ∧ w1 = progressMap_set uuid snapshot_starting w0
    ∧ c = Closure
            [u; "-x"; "--audio-format"; default_to "mp3" (format b);
             "--audio-quality"; default_to "192k" (quality b); "-o";
             path_join DOWNLOAD_DIR
               (uuid +:+ "." +:+ default_to "mp3" (format b));
             "--no-playlist"]
            (path_join DOWNLOAD_DIR
               (uuid +:+ "." +:+ default_to "mp3" (format b)))
            uuid "" Pending.
Proof.
  unfold post_download_audio. intros H.
  destruct (invalid_url (url b)) eqn:Hu; [done|].
  apply invalid_url_false in Hu as (u & Hurl & Hvalid).
  rewrite Hurl in H. simpl in H.
  match type of H with
  | (if ?thrown then _ else _) = _ => destruct thrown
  end; [discriminate H|]. injection H as <- <-. eauto.
Qed.

Lemma run_then_close_completed acts code w c :
  snap_status <$>
    progressMap_get (id c)
      (on_close code (run acts (w, c)).1 (run acts (w, c)).2).1
  = Some completed
  ↔ code = Some 0%Z ∧ outputPath c ∈ disk (run acts (w, c)).1.
Proof.
  pose proof (on_close_completed_iff code (run acts (w, c)).1
                (run acts (w, c)).2) as H.
  rewrite run_closure in H. simpl in H. by rewrite run_closure.
Qed.

(** X9: a single-video job checks at exit the very path it passed to yt-dlp
    after [-o], the file named by the job id and the format inside the
    download directory; the job ends completed exactly when the exit code is
    0 and that file is on disk. *)
Theorem video_completed_file b uuid w0 w1 c acts code :
  post_download_video path_join DOWNLOAD_DIR b uuid w0 = (w1, Some c) ->
  let out :=
    path_join DOWNLOAD_DIR (uuid +:+ "." +:+ default_to "mp4" (format b)) in
  let s := run acts (w1, c) in
  let s' := on_close code s.1 s.2 in
  outputPath c = out
  ∧ args c !! 3 = Some "-o" ∧ args c !! 4 = Some out
  ∧ (snap_status <$> progressMap_get uuid s'.1 = Some completed
     ↔ code = Some 0%Z ∧ out ∈ disk s.1).
Proof.
  intros H. cbv zeta. apply video_started in H as (u & _ & _ & -> & ->).
  split_and!; [done..|].
  apply (run_then_close_completed acts code _ (Closure _ _ uuid _ _)).
Qed.

(** X10: an audio request is planned as [-x --audio-format F --audio-quality
    Q -o file --no-playlist], with mp3 and 192k when the request names
    none; the file is named by the job id and F, and the job ends completed
    exactly when the exit code is 0 and that file is on disk. *)
Theorem audio_arguments b uuid w0 w1 c acts code :
  post_download_audio path_join DOWNLOAD_DIR b uuid w0 = (w1, Some c) ->
  let F := default_to "mp3" (format b) in
  let Q := default_to "192k" (quality b) in
  let out := path_join DOWNLOAD_DIR (uuid +:+ "." +:+ F) in
  let s := run acts (w1, c) in
  let s' := on_close code s.1 s.2 in
  ∃ u,
    url b = Some u
    ∧ args c = [u; "-x"; "--audio-format"; F; "--audio-quality"; Q; "-o";
                out; "--no-playlist"]
    ∧ outputPath c = out
    ∧ (snap_status <$> progressMap_get uuid s'.1 = Some completed
       ↔ code = Some 0%Z ∧ out ∈ disk s.1).
Proof.
  intros H. cbv zeta. apply audio_started in H as (u & Hu & _ & -> & ->).
  exists u. split_and!; [done..|].
  apply (run_then_close_completed acts code _ (Closure _ _ uuid _ _)).
Qed.

Lemma route_outcomes b uuid w (thrown : bool) (w1 : world) (c1 : closure)
    (r : world * option closure) :
  r = (if invalid_url (url b) then (w, None)
       else if thrown then (w1, None)
       else (progressMap_set uuid snapshot_starting w1, Some c1)) ->
  (thrown = false -> spawn_throws (args c1) = false) ->
  progressMap w1 = progressMap w -> history w1 = history w ->
  id c1 = uuid -> settled c1 = Pending ->
  (post_validate_url b = false -> r = (w, None))
  ∧ (∀ w' c,
       r = (w', Some c) ->
       post_validate_url b = true
       ∧ spawn_throws (args c) = false
       ∧ id c = uuid ∧ settled c = Pending
       ∧ get_download_progress uuid w' = Ok snapshot_starting)
  ∧ (∀ w', r = (w', None) ->
           progressMap w' = progressMap w ∧ history w' = history w).
Proof.
  intros -> Hs Hm Hh Hid Hp. rewrite validate_invalid.
  destruct (invalid_url (url b)); simpl.
  - split_and!; [done | intros w' c H; discriminate H |].
    by intros w' [= <-].
  - destruct thrown.
    + split_and!; [done | intros w' c H; discriminate H |].
      by intros w' [= <-].
    + split_and!; [done | | intros w' H; discriminate H].
      intros w' c [= <- <-]. split_and!; try done; [by apply Hs|].
      unfold get_download_progress, progressMap_get. simpl.
      by rewrite lookup_insert_eq.
Qed.

(** X11: a download route starts no run and changes nothing for a request
    whose URL [/validate/url] calls invalid.  Whenever a route starts a run,
    the URL is one [/validate/url] calls valid, no argument holds NUL, the
    run has the given id and a pending promise, and the progress query
    answers for the id at once, with the starting snapshot.  When a route
    starts no run, the store is as it was. *)
Theorem routes_agree_with_validation b uuid w :
  Forall (λ route : body → string → world → world * option closure,
            (post_validate_url b = false -> route b uuid w = (w, None))
            ∧ (∀ w' c,
                 route b uuid w = (w', Some c) ->
                 post_validate_url b = true
                 ∧ spawn_throws (args c) = false
                 ∧ id c = uuid ∧ settled c = Pending
                 ∧ get_download_progress uuid w' = Ok snapshot_starting)
            ∧ (∀ w',
                 route b uuid w = (w', None) ->
                 progressMap w' = progressMap w ∧ history w' = history w))
    [post_download_video path_join DOWNLOAD_DIR;
     post_download_audio path_join DOWNLOAD_DIR;
     post_download_playlist path_join DOWNLOAD_DIR].
Proof.
  repeat apply Forall_cons_2; [| | |apply Forall_nil_2]; cbv beta.
  - by eapply (route_outcomes b uuid w _ w (Closure _ _ uuid "" Pending)).
  - by eapply (route_outcomes b uuid w _ w (Closure _ _ uuid "" Pending)).
  - set (folder := path_join DOWNLOAD_DIR uuid).
    set (template := playlist_template path_join folder).
    set (args := if default_to false (audioOnly b)
                 then [default_to "" (url b); "-x"; "--audio-format";
                       default_to "mp4" (format b); "-o"; template]
                 else [default_to "" (url b); "-f";
                       format_filter (default_to "720p" (quality b))
                         (default_to "mp4" (format b));
                       "-o"; template]).
    apply (route_outcomes b uuid w
             (fs_mkdirSync_throws folder w || spawn_throws args)
             (fs_mkdirSync folder w) (Closure args folder uuid "" Pending));
      [|by intros [_ H]%orb_false_elim|done..].
    unfold post_download_playlist. destruct (invalid_url (url b)); [done|].
    cbv zeta. fold folder template args.
    destruct (fs_mkdirSync_throws folder w); [done|].
    by destruct (spawn_throws args).
Qed.
End MoreRouteFacts.

Lemma routes_agree_with_validation_witness :
  post_download_video join_slash "/srv/downloads"
    (Body (Some "https://vimeo.com/1") None None None None None) "job-1"
    (empty_world ∅)
  = (empty_world ∅, None)
  ∧ get_download_progress "job-1"
      (post_download_video join_slash "/srv/downloads" sample_video "job-1"
         (empty_world ∅)).1
    = Ok snapshot_starting
  ∧ history
      (post_download_video join_slash "/srv/downloads" sample_nul "job-1"
         (empty_world ∅)).1
    = history (empty_world ∅).
Proof.
  pose proof (routes_agree_with_validation join_slash "/srv/downloads"
                (Body (Some "https://vimeo.com/1") None None None None None)
                "job-1" (empty_world ∅)) as H1.
  pose proof (routes_agree_with_validation join_slash "/srv/downloads"
                sample_video "job-1" (empty_world ∅)) as H2.
  pose proof (routes_agree_with_validation join_slash "/srv/downloads"
                sample_nul "job-1" (empty_world ∅)) as H3.
  apply Forall_cons_1 in H1 as [(H1 & _ & _) _].
  apply Forall_cons_1 in H2 as [(_ & H2 & _) _].
  apply Forall_cons_1 in H3 as [(_ & _ & H3) _].
  split_and!.
  - apply H1. reflexivity.
  - eapply H2. reflexivity.
  - eapply H3. reflexivity.
Defined.

Lemma video_completed_file_witness :
  ∃ w1 c,
    post_download_video join_slash "/srv/downloads" sample_video "job-1"
      (empty_world ∅) = (w1, Some c)
    ∧ outputPath c = "/srv/downloads/job-1.webm"
    ∧ args c !! 4 = Some "/srv/downloads/job-1.webm".
Proof.
  eexists _, _. split; [reflexivity|].
  destruct (video_completed_file join_slash "/srv/downloads" sample_video
              "job-1" (empty_world ∅) _ _ [] (Some 0%Z) eq_refl)
    as (H1 & _ & H2 & _).
  split; [exact H1 | exact H2].
Defined.

Lemma audio_arguments_witness :
  ∃ w1 c,
    post_download_audio join_slash "/srv/downloads"
      (Body (Some "https://youtu.be/dQw4w9WgXcQ") None None None None None)
      "job-1" (empty_world ∅) = (w1, Some c)
    ∧ args c
      = ["https://youtu.be/dQw4w9WgXcQ"; "-x"; "--audio-format"; "mp3";
         "--audio-quality"; "192k"; "-o"; "/srv/downloads/job-1.mp3";
         "--no-playlist"].
Proof.
  eexists _, _. split; [reflexivity|].
  destruct (audio_arguments join_slash "/srv/downloads"
              (Body (Some "https://youtu.be/dQw4w9WgXcQ") None None None
                 None None)
              "job-1" (empty_world ∅) _ _ [] (Some 0%Z) eq_refl)
    as (u & Hu & Hargs & _).
  injection Hu as <-. exact Hargs.
Defined.

(** ** More on the server *)

Lemma handle_keeps_entries e w c k :
  is_Some (progressMap w !! k) -> is_Some (progressMap (handle e w c).1 !! k).
Proof.
  intros H.
  assert (Hset : ∀ p, is_Some (progressMap (progressMap_set (id c) p w) !! k)).
  { intros p. simpl. rewrite lookup_insert. by case_decide. }
  destruct e as [data|data|message|code]; simpl; [|done|apply Hset|].
  - unfold on_stdout. destruct (parse_progress data); [apply Hset | done].
  - unfold on_close. destruct (_ && _); apply Hset.
Qed.

Lemma handle_disk e w c : disk (handle e w c).1 = disk w.
Proof.
  destruct e as [data|data|message|code]; simpl; [|done|done|].
  - unfold on_stdout. by destruct (parse_progress data).
  - unfold on_close. by destruct (_ && _).
Qed.

Section MoreServerFacts.
Variable path_join : string -> string -> string.
Variable DOWNLOAD_DIR : string.

Lemma serve_keeps_entries s i k :
  is_Some (progressMap (shared s) !! k) ->
  is_Some (progressMap (shared (serve path_join DOWNLOAD_DIR s i)) !! k).
Proof.
  intros H.
  assert (Hset : ∀ j p w, is_Some (progressMap w !! k) ->
                 is_Some (progressMap (progressMap_set j p w) !! k)).
  { intros j p w Hw. simpl. rewrite lookup_insert. by case_decide. }
  destruct i as [b uuid|b uuid|b uuid|n e|ch]; simpl.
  - unfold post_download_video. destruct (invalid_url (url b)); [done|].
    destruct (spawn_throws _); [done|]. by apply Hset.
  - unfold post_download_audio. destruct (invalid_url (url b)); [done|].
    destruct (spawn_throws _); [done|]. by apply Hset.
  - unfold post_download_playlist. destruct (invalid_url (url b)); [done|].
    destruct (fs_mkdirSync_throws _ _); [done|].
    destruct (spawn_throws _); [done|]. by apply Hset.
  - destruct (jobs s !! n); [|done]. by apply handle_keeps_entries.
  - by destruct ch.
Qed.

(** X12: the store never forgets: an id the progress query knows stays
    known whatever requests, child events and disk changes follow. *)
Theorem entries_are_kept (inputs : list input) (s : server) (jid : string)
    (p : snapshot) :
  get_download_progress jid (shared s) = Ok p ->
  ∃ p', get_download_progress jid
          (shared (serve_all path_join DOWNLOAD_DIR inputs s)) = Ok p'.
Proof.
  intros H.
  assert (Hs : is_Some (progressMap (shared s) !! jid)).
  { unfold get_download_progress, progressMap_get in H.
    by destruct (progressMap (shared s) !! jid). }
  clear H p. revert s Hs. induction inputs as [|i inputs IH]; intros s Hs.
  - destruct Hs as [p' Hp']. exists p'.
    unfold get_download_progress, progressMap_get. simpl. by rewrite Hp'.
  - apply (IH (serve path_join DOWNLOAD_DIR s i)).
    by apply serve_keeps_entries.
Qed.

(** X13: an event of one child changes only the closure of that child and
    the entry of its id: the entry and the status history of every other id,
    and every other closure, stay as they were. *)
Theorem jobs_do_not_interfere (s : server) (n : nat) (e : event)
    (c : closure) (jid : string) :
  jobs s !! n = Some c -> id c ≠ jid ->
  let s' := serve path_join DOWNLOAD_DIR s (child_event n e) in
  progressMap_get jid (shared s') = progressMap_get jid (shared s)
  ∧ statuses jid (shared s') = statuses jid (shared s)
  ∧ disk (shared s') = disk (shared s)
  ∧ ∀ m, m ≠ n -> jobs s' !! m = jobs s !! m.
Proof.
  intros Hn Hne. simpl. rewrite Hn. simpl.
  destruct (handle_other_job e (shared s) c jid Hne) as [H1 H2].
  split_and!; [done | done | apply handle_disk |].
  intros m Hm. by rewrite list_lookup_insert_ne.
Qed.

Lemma serve_disk_grows s i :
  (∀ p, i ≠ disk_change (removed p)) ->
  disk (shared s) ⊆ disk (shared (serve path_join DOWNLOAD_DIR s i)).
Proof.
  intros Hi. destruct i as [b uuid|b uuid|b uuid|n e|ch]; simpl.
  - unfold post_download_video. destruct (invalid_url (url b)); [done|].
    by destruct (spawn_throws _).
  - unfold post_download_audio. destruct (invalid_url (url b)); [done|].
    by destruct (spawn_throws _).
  - unfold post_download_playlist. destruct (invalid_url (url b)); [done|].
    destruct (fs_mkdirSync_throws _ _); [simpl; set_solver|].
    destruct (spawn_throws _); simpl; set_solver.
  - destruct (jobs s !! n); [|done]. simpl. by rewrite handle_disk.
  - destruct ch as [p|p]; simpl; [set_solver|]. by destruct (Hi p).
Qed.

(** X14: the routes and listeners never delete anything: unless a path is
    removed from outside, everything on disk stays there, through failed
    runs as well. *)
Theorem nothing_is_cleaned_up (inputs : list input) (s : server) :
  Forall (λ i, ∀ p, i ≠ disk_change (removed p)) inputs ->
  disk (shared s)
  ⊆ disk (shared (serve_all path_join DOWNLOAD_DIR inputs s)).
Proof.
  revert s. induction inputs as [|i inputs IH]; intros s H; [done|].
  apply Forall_cons_1 in H as [Hi H]. simpl.
  etrans; [by apply serve_disk_grows | by apply IH].
Qed.

Lemma handle_writes (P : snapshot → Prop) e w c :
  P snapshot_completed -> (∀ m, P (snapshot_error m)) ->
  (∀ line p, parse_progress line = Some p -> P p) ->
  Forall (λ x, P x.2) (history w) ->
  Forall (λ x, P x.2) (history (handle e w c).1).
Proof.
  intros Hc He Hd Hw.
  assert (Hset : ∀ p, P p ->
                 Forall (λ x, P x.2) (history (progressMap_set (id c) p w))).
  { intros p Hp. simpl. apply Forall_app. split; [done | by constructor]. }
  destruct e as [data|data|message|code]; simpl.
  - unfold on_stdout. destruct (parse_progress data) as [p|] eqn:Hp; [|done].
    apply Hset. by eapply Hd.
  - done.
  - by apply Hset.
  - unfold on_close. destruct (_ && _); by apply Hset.
Qed.

Lemma serve_writes (P : snapshot → Prop) s i :
  P snapshot_starting -> P snapshot_completed ->
  (∀ m, P (snapshot_error m)) ->
  (∀ line p, parse_progress line = Some p -> P p) ->
  Forall (λ x, P x.2) (history (shared s)) ->
  Forall (λ x, P x.2)
    (history (shared (serve path_join DOWNLOAD_DIR s i))).
Proof.
  intros Hs Hc He Hd Hw.
  assert (Hset : ∀ j w, Forall (λ x, P x.2) (history w) ->
    Forall (λ x, P x.2) (history (progressMap_set j snapshot_starting w))).
  { intros j w H. simpl. apply Forall_app. split; [done | by constructor]. }
  destruct i as [b uuid|b uuid|b uuid|n e|ch]; simpl.
  - unfold post_download_video. destruct (invalid_url (url b)); [done|].
    destruct (spawn_throws _); [done|]. by apply Hset.
  - unfold post_download_audio. destruct (invalid_url (url b)); [done|].
    destruct (spawn_throws _); [done|]. by apply Hset.
  - unfold post_download_playlist. destruct (invalid_url (url b)); [done|].
    destruct (fs_mkdirSync_throws _ _); [done|].
    destruct (spawn_throws _); [done|]. by apply Hset.
  - destruct (jobs s !! n); [|done]. by apply handle_writes.
  - by destruct ch.
Qed.

(** X15: every snapshot ever stored has the fields of its status: [speed]
    and [eta] are null while starting, texts while downloading and absent
    afterwards, and [error] is present exactly in the error status. *)
Theorem stored_fields_by_status (inputs : list input) (files : gset string) :
  Forall (λ x, fields_by_status x.2)
    (history (shared (serve_all path_join DOWNLOAD_DIR inputs (boot files)))).
Proof.
  assert (H : ∀ s, Forall (λ x, fields_by_status x.2) (history (shared s)) ->
    Forall (λ x, fields_by_status x.2)
      (history (shared (serve_all path_join DOWNLOAD_DIR inputs s)))).
  { induction inputs as [|i inputs IH]; intros s Hs; [done|].
    apply (IH (serve path_join DOWNLOAD_DIR s i)).
    apply serve_writes; try done.
    intros line p Hp. apply parse_progress_Some in Hp
      as (q & speed & eta & -> & _).
    split_and!; by eauto. }
  by apply H.
Qed.
End MoreServerFacts.

Lemma entries_are_kept_witness :
  ∃ p', get_download_progress "job-1"
          (shared (serve_all join_slash "/srv/downloads"
             [child_event 0 (child_close (Some 1%Z)); POST_audio sample_video "job-2"]
             (serve_all join_slash "/srv/downloads"
                [POST_video sample_video "job-1"] (boot ∅)))) = Ok p'.
Proof.
  apply (entries_are_kept join_slash "/srv/downloads"
           [child_event 0 (child_close (Some 1%Z));
            POST_audio sample_video "job-2"]
           (serve_all join_slash "/srv/downloads"
              [POST_video sample_video "job-1"] (boot ∅))
           "job-1" snapshot_starting).
  reflexivity.
Defined.

Lemma jobs_do_not_interfere_witness :
  let s := serve_all join_slash "/srv/downloads"
             [POST_video sample_video "job-1";
              POST_audio sample_video "job-2"] (boot ∅) in
  progressMap_get "job-1"
    (shared (serve join_slash "/srv/downloads" s
               (child_event 1 (child_error "spawn yt-dlp ENOENT"))))
  = progressMap_get "job-1" (shared s).
Proof.
  intros s.
  apply (jobs_do_not_interfere join_slash "/srv/downloads" s 1
           (child_error "spawn yt-dlp ENOENT")
           (Closure
              ["https://www.youtube.com/watch?v=dQw4w9WgXcQ&list=PL1"; "-x";
               "--audio-format"; "webm"; "--audio-quality"; "1080p"; "-o";
               "/srv/downloads/job-2.webm"; "--no-playlist"]
              "/srv/downloads/job-2.webm" "job-2" "" Pending)
           "job-1").
  - reflexivity.
  - discriminate.
Defined.

Lemma nothing_is_cleaned_up_witness :
  disk (shared (boot {["/srv/downloads"]}))
  ⊆ disk (shared (serve_all join_slash "/srv/downloads"
            [POST_playlist (sample_playlist false) "job-1";
             child_event 0 (child_close (Some 1%Z))]
            (boot {["/srv/downloads"]}))).
Proof.
  apply (nothing_is_cleaned_up join_slash "/srv/downloads"
           [POST_playlist (sample_playlist false) "job-1";
            child_event 0 (child_close (Some 1%Z))]
           (boot {["/srv/downloads"]})).
  repeat constructor; discriminate.
Defined.

(** ** Loading the module *)





(** ** The metadata routes *)

Section MetadataFacts.
Variable J : Type.
Variable JSON_parse : string -> option J.


Lemma metadata_gathers close cs : ∀ out err,
  foldl (metadata_listen J close) (Gathering out err) (chunk_event <$> cs)
  = Gathering (out +:+ chunks_out cs) (err +:+ chunks_err cs).
Proof.
  induction cs as [|c cs IH]; intros out err; simpl.
  - by rewrite !append_nil_r.
  - destruct c as [d|d]; simpl; rewrite IH; by rewrite append_assoc.
Qed.




(** X19: neither metadata route listens to ['error']: when the child cannot
    be spawned the request is never answered, whatever arrives later. *)
Theorem metadata_launch_failure_unanswered
    (close : option Z -> string -> string -> reply J)
    (cs : list chunk) (message : string) (later : list event) :
  foldl (metadata_listen J close) (Gathering "" "")
    ((chunk_event <$> cs) ++ child_error message :: later)
  = Unhandled message.
Proof.
  rewrite foldl_app, metadata_gathers. simpl.
  induction later as [|e later IH]; [done|]. exact IH.
Qed.
End MetadataFacts.
